(** * EvAdventure turn-based combat: a model of [combat.py]

    The development embeds the combat handler of
    [evennia/contrib/tutorials/evadventure/combat.py]
    (classes [CombatAction*] and [EvAdventureCombatHandler]) as functions
    in a state-and-exception monad, and states the properties of the
    combat engine over that embedding.

    Conventions.
    - Python dictionaries whose iteration order is observable
      ([combatants], [fleeing_combatants]) are insertion-ordered
      association lists with one entry per key; the advantage matrices,
      which are only ever read at a key, are [gmap]s.
    - Objects outside the handler (characters, weapons, items, the dice)
      are reached through the [Collaborators] interface; what they do to
      the game world is left abstract.
    - Calls that leave the handler (messages, [cmdset.remove],
      [force_repeat], [stop], [delete]) and each [action.execute()] are
      recorded, in order, in the [trace] of the state.
    - [combatants] and [fleeing_combatants] are [AttributeProperty]s of
      the script.  The loop of [stop_combat] over [combatants] runs over
      the entries the property hands out when the loop starts, whatever
      [remove_combatant] pops meanwhile; the loop over
      [fleeing_combatants], whose body leaves that dictionary alone, is
      written with the size check of a Python dictionary iterator, which
      never fires there.
    - Python exceptions are values of [exn]; the state reached when the
      exception is raised is kept. *)

From stdpp Require Import gmap list.
From Stdlib Require Import ZArith.

(** ** Association lists (insertion-ordered dictionaries) *)

Section alist.
Context {K V : Type} `{EqDecision K}.

(** [d[k]] / [d.get(k)] *)
Fixpoint alookup (k : K) (l : list (K * V)) : option V :=
  match l with
  | [] => None
  | (k', v) :: l' => if decide (k = k') then Some v else alookup k l'
  end.

(** [d.keys()] *)
Definition akeys (l : list (K * V)) : list K := l.*1.

(** [d.pop(k, None)] (the value is dropped) *)
Fixpoint aremove (k : K) (l : list (K * V)) : list (K * V) :=
  match l with
  | [] => []
  | (k', v) :: l' =>
      if decide (k = k') then aremove k l' else (k', v) :: aremove k l'
  end.

(** [d[k] = v]: an existing key keeps its position, a new one goes last *)
Fixpoint ainsert (k : K) (v : V) (l : list (K * V)) : list (K * V) :=
  match l with
  | [] => [(k, v)]
  | (k', v') :: l' =>
      if decide (k = k') then (k, v) :: l' else (k', v') :: ainsert k v l'
  end.
End alist.

(** ** Data model *)

Definition combatant := nat.
Definition item := nat.
(** members of the [Ability] enumeration *)
Definition ability := nat.

(** The action-dicts stored in the queues, one constructor per key of
    [action_classes]. *)
Inductive action_dict :=
| Hold
| Attack (target : combatant)
| Stunt (recipient target : combatant) (advantage : bool)
        (stunt_type defense_type : ability)
| UseItem (it : item) (target : option combatant)
| Wield (it : item)
| Flee.

#[global] Instance action_dict_eq_dec : EqDecision action_dict.
Proof. solve_decision. Defined.


(** What is sent through [EvAdventureCombatHandler.msg]: the template and
    the values substituted into it. *)
Inductive message :=
| MsgStuntAttempt (defender : combatant)
| MsgStuntGain (advantage : bool) (target : combatant)
| MsgStuntCause (recipient : combatant) (advantage : bool) (target : combatant)
| MsgStuntHold
| MsgStuntResist (defender : combatant)
| MsgRetreat (time_left : Z)
| MsgDefeated
| MsgFled
| MsgCombatOver (still_standing knocked_out killed : list combatant).

Inductive event :=
| EvMsg (m : message) (who : option combatant) (broadcast : bool)
| EvExecute (c : combatant) (a : action_dict)
| EvCmdsetRemove (c : combatant)
| EvForceRepeat
| EvStop
| EvDelete.

#[global] Instance message_eq_dec : EqDecision message.
Proof. solve_decision. Defined.
#[global] Instance event_eq_dec : EqDecision event.
Proof. solve_decision. Defined.

Inductive exn :=
| KeyError (c : combatant)
| RuntimeError.  (* "dictionary changed size during iteration" *)

(** The collaborators of the handler: the combatant, equipped-weapon and
    item contracts and the dice of [rules]. *)
Class Collaborators (World : Type) := {
  hp : World -> combatant -> Z;
  is_pc : combatant -> bool;
  at_defeat : combatant -> World -> World;
  weapon_at_pre_use : World -> combatant -> combatant -> bool;
  weapon_use : combatant -> combatant -> bool -> World -> World;
  weapon_at_post_use : combatant -> combatant -> World -> World;
  item_at_pre_use : World -> item -> combatant -> option combatant -> bool;
  item_use :
    item -> combatant -> option combatant -> bool -> bool -> World -> World;
  item_at_post_use : item -> combatant -> option combatant -> World -> World;
  equipment_move : combatant -> item -> World -> World;
  opposed_saving_throw :
    World -> combatant -> combatant -> ability -> ability -> bool -> bool ->
    bool * World
}.

Section handler.
Context {World : Type} `{Collaborators World}.

(** The attributes of [EvAdventureCombatHandler], the [allow_pvp] flag of
    its room ([self.obj]), the game world and the trace. *)
Record state := mkState {
  turn : Z;
  combatants : list (combatant * list action_dict);
  advantage_matrix : gmap combatant (gmap combatant bool);
  disadvantage_matrix : gmap combatant (gmap combatant bool);
  fleeing_combatants : list (combatant * Z);
  defeated_combatants : list combatant;
  ndb_did_action : option (gset combatant);
  flee_timeout : Z;
  max_action_queue_size : nat;
  allow_pvp : bool;
  world : World;
  trace : list event
}.

Definition set_turn (v : Z) (s : state) : state :=
  mkState v (combatants s) (advantage_matrix s) (disadvantage_matrix s)
    (fleeing_combatants s) (defeated_combatants s) (ndb_did_action s)
    (flee_timeout s) (max_action_queue_size s) (allow_pvp s) (world s)
    (trace s).
Definition set_combatants (v : list (combatant * list action_dict))
    (s : state) : state :=
  mkState (turn s) v (advantage_matrix s) (disadvantage_matrix s)
    (fleeing_combatants s) (defeated_combatants s) (ndb_did_action s)
    (flee_timeout s) (max_action_queue_size s) (allow_pvp s) (world s)
    (trace s).
Definition set_advantage_matrix (v : gmap combatant (gmap combatant bool))
    (s : state) : state :=
  mkState (turn s) (combatants s) v (disadvantage_matrix s)
    (fleeing_combatants s) (defeated_combatants s) (ndb_did_action s)
    (flee_timeout s) (max_action_queue_size s) (allow_pvp s) (world s)
    (trace s).
Definition set_disadvantage_matrix
    (v : gmap combatant (gmap combatant bool)) (s : state) : state :=
  mkState (turn s) (combatants s) (advantage_matrix s) v
    (fleeing_combatants s) (defeated_combatants s) (ndb_did_action s)
    (flee_timeout s) (max_action_queue_size s) (allow_pvp s) (world s)
    (trace s).
Definition set_fleeing_combatants (v : list (combatant * Z)) (s : state)
    : state :=
  mkState (turn s) (combatants s) (advantage_matrix s)
    (disadvantage_matrix s) v (defeated_combatants s) (ndb_did_action s)
    (flee_timeout s) (max_action_queue_size s) (allow_pvp s) (world s)
    (trace s).
Definition set_defeated_combatants (v : list combatant) (s : state)
    : state :=
  mkState (turn s) (combatants s) (advantage_matrix s)
    (disadvantage_matrix s) (fleeing_combatants s) v (ndb_did_action s)
    (flee_timeout s) (max_action_queue_size s) (allow_pvp s) (world s)
    (trace s).
Definition set_world (v : World) (s : state) : state :=
  mkState (turn s) (combatants s) (advantage_matrix s)
    (disadvantage_matrix s) (fleeing_combatants s) (defeated_combatants s)
    (ndb_did_action s) (flee_timeout s) (max_action_queue_size s)
    (allow_pvp s) v (trace s).
Definition set_trace (v : list event) (s : state) : state :=
  mkState (turn s) (combatants s) (advantage_matrix s)
    (disadvantage_matrix s) (fleeing_combatants s) (defeated_combatants s)
    (ndb_did_action s) (flee_timeout s) (max_action_queue_size s)
    (allow_pvp s) (world s) v.

(** ** The monad of handler methods *)

Definition M (A : Type) : Type := state -> (exn + A) * state.

#[global] Instance M_ret : MRet M := fun A a s => (inr a, s).
#[global] Instance M_bind : MBind M := fun A B k m s =>
  match m s with
  | (inl e, s') => (inl e, s')
  | (inr a, s') => k a s'
  end.

Definition raise {A} (e : exn) : M A := fun s => (inl e, s).
Definition gets {A} (f : state -> A) : M A := fun s => (inr (f s), s).
Definition modify (f : state -> state) : M unit := fun s => (inr tt, f s).
Definition emit (e : event) : M unit :=
  modify (fun s => set_trace (trace s ++ [e]) s).
Definition when (b : bool) (m : M unit) : M unit :=
  if b then m else mret tt.

(** [for x in l: body(x)] over a list that the body cannot reach *)
Fixpoint for_each {A} (l : list A) (body : A -> M unit) : M unit :=
  match l with
  | [] => mret tt
  | x :: l' => body x ;; for_each l' body
  end.

(** [for x in d: body(x)] over a dictionary of the handler, read through
    [view].  As in CPython, the iterator remembers the size of the
    dictionary and its position; every step first compares the size and
    raises [RuntimeError] when it changed. *)
Fixpoint dict_iter {A} (view : state -> list A) (used pos todo : nat)
    (body : A -> M unit) : M unit := fun s =>
  if negb (length (view s) =? used)%nat then (inl RuntimeError, s)
  else
    match todo with
    | O => (inr tt, s)
    | S todo' =>
        match view s !! pos with
        | None => (inr tt, s)
        | Some x => (body x ;; dict_iter view used (S pos) todo' body) s
        end
    end.

Definition for_dict {A} (view : state -> list A) (body : A -> M unit)
    : M unit := fun s =>
  dict_iter view (length (view s)) 0 (length (view s)) body s.


(** ** Action queues: [deque((), maxlen=max_action_queue_size)] *)

(** [deque.append]: a full queue drops its leftmost entry *)
Definition deque_append (maxlen : nat) (q : list action_dict)
    (a : action_dict) : list action_dict :=
  match maxlen with
  | O => q
  | S _ => if (length q <? maxlen)%nat then q ++ [a] else tail q ++ [a]
  end.

(** [deque.rotate(-1)] *)
Definition deque_rotate (q : list action_dict) : list action_dict :=
  match q with
  | [] => []
  | a :: q' => q' ++ [a]
  end.

Definition fallback_action_dict : action_dict := Hold.

(** ** [EvAdventureCombatHandler]: messages, membership, queues *)

(** [d[c]], which raises [KeyError] on a missing key *)
Definition lookup_or_KeyError {V} (c : combatant)
    (view : state -> list (combatant * V)) : M V := fun s =>
  match alookup c (view s) with
  | Some v => (inr v, s)
  | None => (inl (KeyError c), s)
  end.

Definition msg (m : message) (who : option combatant) (broadcast : bool)
    : M unit :=
  emit (EvMsg m who broadcast).

Definition add_combatant (c : combatant) : M bool := fun s =>
  if bool_decide (c ∈ akeys (combatants s)) then (inr false, s)
  else (inr true, set_combatants (ainsert c [] (combatants s)) s).

Definition remove_combatant (c : combatant) : M unit :=
  modify (fun s => set_combatants (aremove c (combatants s)) s) ;;
  emit (EvCmdsetRemove c).

(** [stop_combat].  The loop runs over the combatants the
    [AttributeProperty] hands out when it starts; the removals of its
    body do not reach them.  [self.stop()] and [self.delete()] belong
    to the script base class; the calls are recorded. *)
Definition stop_combat : M unit :=
  ks ← gets (fun s => akeys (combatants s)) ;
  for_each ks remove_combatant ;;
  emit EvStop ;;
  emit EvDelete.

(** [force_repeat] belongs to the script base class: it makes the
    scheduler run the next turn at once.  The call is recorded. *)
Definition force_repeat : M unit := emit EvForceRepeat.

Definition get_sides (c : combatant) (s : state)
    : list combatant * list combatant :=
  let ks := akeys (combatants s) in
  if allow_pvp s then
    ([c], filter (fun comb => comb ≠ c) ks)
  else
    let pcs := filter (fun comb => is_pc comb = true) ks in
    let npcs := filter (fun comb => comb ∉ pcs) ks in
    if bool_decide (c ∈ pcs) then
      (filter (fun comb => comb ≠ c) pcs, npcs)
    else
      (filter (fun comb => comb ≠ c) npcs, pcs).

Definition queue_action (c : combatant) (a : action_dict) : M unit :=
  q ← lookup_or_KeyError c combatants ;
  max ← gets max_action_queue_size ;
  modify (fun s =>
    set_combatants (ainsert c (deque_append max q a) (combatants s)) s) ;;
  (* track who inserted actions this turn (non-persistent) *)
  ndb ← gets ndb_did_action ;
  let did_action : gset combatant := default ∅ ndb ∪ {[c]} in
  n ← gets (fun s => length (combatants s)) ;
  when (n <=? size did_action)%nat force_repeat.

Definition get_next_action_dict (c : combatant) (rotate_queue : bool)
    : M action_dict :=
  action_queue ← lookup_or_KeyError c combatants ;
  let action_dict :=
    match action_queue with
    | a :: _ => a
    | [] => fallback_action_dict
    end in
  when rotate_queue
    (modify (fun s =>
       set_combatants
         (ainsert c (deque_rotate action_queue) (combatants s)) s)) ;;
  mret action_dict.

(** ** [CombatAction]: the advantage ledger *)

Definition matrix_set (r t : combatant) (b : bool)
    (m : gmap combatant (gmap combatant bool))
    : gmap combatant (gmap combatant bool) :=
  <[r := <[t := b]> (default ∅ (m !! r))]> m.

(** [matrix[r].pop(t, False)]; reading row [r] of the defaultdict
    creates it *)
Definition matrix_pop (r t : combatant)
    (m : gmap combatant (gmap combatant bool))
    : bool * gmap combatant (gmap combatant bool) :=
  let row := default ∅ (m !! r) in
  (default false (row !! t), <[r := delete t row]> m).

Definition give_advantage (recipient target : combatant) : M unit :=
  modify (fun s =>
    set_advantage_matrix
      (matrix_set recipient target true (advantage_matrix s)) s).

Definition give_disadvantage (recipient target : combatant) : M unit :=
  modify (fun s =>
    set_disadvantage_matrix
      (matrix_set recipient target true (disadvantage_matrix s)) s).

Definition has_advantage (recipient target : combatant) : M bool :=
  fun s =>
    let '(b, m) := matrix_pop recipient target (advantage_matrix s) in
    (inr (b || bool_decide (target ∈ akeys (fleeing_combatants s))),
     set_advantage_matrix m s).

Definition has_disadvantage (recipient target : combatant) : M bool :=
  fun s =>
    let '(b, m) := matrix_pop recipient target (disadvantage_matrix s) in
    (inr (b || bool_decide (recipient ∈ akeys (fleeing_combatants s))),
     set_disadvantage_matrix m s).

Definition lose_advantage (recipient target : combatant) : M unit :=
  modify (fun s =>
    set_advantage_matrix
      (matrix_set recipient target false (advantage_matrix s)) s).

Definition lose_disadvantage (recipient target : combatant) : M unit :=
  modify (fun s =>
    set_disadvantage_matrix
      (matrix_set recipient target false (disadvantage_matrix s)) s).

(** ** Action classes *)

Definition modify_world (f : World -> World) : M unit :=
  modify (fun s => set_world (f (world s)) s).

(** [has_advantage] / [has_disadvantage] with a target that may be
    [None] (the optional target of the use action) *)
Definition has_advantage_target (recipient : combatant)
    (target : option combatant) : M bool :=
  match target with
  | Some t => has_advantage recipient t
  | None =>
      modify (fun s =>
        let m := advantage_matrix s in
        set_advantage_matrix
          (<[recipient := default ∅ (m !! recipient)]> m) s) ;;
      mret false
  end.

Definition has_disadvantage_target (recipient : combatant)
    (target : option combatant) : M bool :=
  match target with
  | Some t => has_disadvantage recipient t
  | None =>
      modify (fun s =>
        let m := disadvantage_matrix s in
        set_disadvantage_matrix
          (<[recipient := default ∅ (m !! recipient)]> m) s) ;;
      gets (fun s =>
        bool_decide (recipient ∈ akeys (fleeing_combatants s)))
  end.

(** [CombatActionAttack.execute] *)
Definition CombatActionAttack_execute (attacker target : combatant)
    : M unit :=
  pre ← gets (fun s => weapon_at_pre_use (world s) attacker target) ;
  when pre
    (adv ← has_advantage attacker target ;
     modify_world (weapon_use attacker target adv) ;;
     modify_world (weapon_at_post_use attacker target)).

(** The defender of the opposed check of a stunt
    ([CombatActionStunt.execute], its first statement) *)
Definition stunt_defender (recipient target : combatant)
    (advantage : bool) : combatant :=
  if decide (recipient = target) then recipient
  else if advantage then target else recipient.

(** [rules.dice.opposed_saving_throw(...)]: the verdict, the dice
    having moved the world on *)
Definition roll_opposed_saving_throw (attacker defender : combatant)
    (stunt_type defense_type : ability) (adv dis : bool) : M bool :=
  fun s =>
    let '(ok, w) :=
      opposed_saving_throw (world s) attacker defender
        stunt_type defense_type adv dis in
    (inr ok, set_world w s).

(** [CombatActionStunt.execute] *)
Definition CombatActionStunt_execute (attacker recipient target : combatant)
    (advantage : bool) (stunt_type defense_type : ability) : M unit :=
  let defender := stunt_defender recipient target advantage in
  adv ← has_advantage attacker defender ;
  dis ← has_disadvantage attacker defender ;
  is_success ← roll_opposed_saving_throw attacker defender
                 stunt_type defense_type adv dis ;
  msg (MsgStuntAttempt defender) (Some attacker) true ;;
  if is_success : bool then
    (if advantage then give_advantage recipient target
     else give_disadvantage recipient target) ;;
    (if decide (recipient = attacker)
     then msg (MsgStuntGain advantage target) (Some attacker) true
     else msg (MsgStuntCause recipient advantage target)
            (Some attacker) true) ;;
    msg MsgStuntHold (Some attacker) false ;;
    queue_action attacker Hold
  else
    msg (MsgStuntResist defender) (Some attacker) true.

(** [CombatActionUseItem.execute] *)
Definition CombatActionUseItem_execute (user : combatant) (it : item)
    (target : option combatant) : M unit :=
  pre ← gets (fun s => item_at_pre_use (world s) it user target) ;
  when pre
    (adv ← has_advantage_target user target ;
     dis ← has_disadvantage_target user target ;
     modify_world (item_use it user target adv dis) ;;
     modify_world (item_at_post_use it user target)) ;;
  queue_action user Hold.

(** [CombatActionWield.execute] *)
Definition CombatActionWield_execute (c : combatant) (it : item) : M unit :=
  modify_world (equipment_move c it) ;;
  queue_action c Hold.

(** [CombatActionFlee.execute] *)
Definition CombatActionFlee_execute (c : combatant) : M unit :=
  fleeing ← gets fleeing_combatants ;
  when (negb (bool_decide (c ∈ akeys fleeing)))
    (modify (fun s =>
       set_fleeing_combatants
         (ainsert c (turn s) (fleeing_combatants s)) s)) ;;
  current_turn ← gets turn ;
  started_fleeing ← lookup_or_KeyError c fleeing_combatants ;
  timeout ← gets flee_timeout ;
  let time_left := (timeout - (current_turn - started_fleeing))%Z in
  when (0 <? time_left)%Z (msg (MsgRetreat time_left) (Some c) true).

(** [action.execute()], dispatched on the class of the action *)
Definition execute (c : combatant) (a : action_dict) : M unit :=
  match a with
  | Hold => mret tt
  | Attack target => CombatActionAttack_execute c target
  | Stunt recipient target advantage stunt_type defense_type =>
      CombatActionStunt_execute c recipient target advantage
        stunt_type defense_type
  | UseItem it target => CombatActionUseItem_execute c it target
  | Wield it => CombatActionWield_execute c it
  | Flee => CombatActionFlee_execute c
  end.

(** [action.post_execute()]: every class but [CombatActionFlee] aborts
    an ongoing flight of the actor *)
Definition post_execute (c : combatant) (a : action_dict) : M unit :=
  match a with
  | Flee => mret tt
  | _ =>
      modify (fun s =>
        set_fleeing_combatants (aremove c (fleeing_combatants s)) s)
  end.

(** ** Turn resolution *)

Definition execute_next_action (c : combatant) : M unit :=
  action_dict ← get_next_action_dict c true ;
  emit (EvExecute c action_dict) ;;
  execute c action_dict ;;
  post_execute c action_dict.

(** [execute_full_turn], first loop: everyone's next queued action, in
    the shuffled order *)
Definition action_phase (order : list combatant) : M unit :=
  for_each order execute_next_action.

(** [execute_full_turn], second loop: who is defeated *)
Definition defeat_body (c : combatant) : M unit :=
  health ← gets (fun s => hp (world s) c) ;
  when (health <=? 0)%Z
    (modify_world (at_defeat c) ;;
     _ ← lookup_or_KeyError c combatants ;
     modify (fun s => set_combatants (aremove c (combatants s)) s) ;;
     modify (fun s =>
       set_defeated_combatants (defeated_combatants s ++ [c]) s) ;;
     msg MsgDefeated (Some c) true).

Definition defeat_sweep : M unit :=
  ks ← gets (fun s => akeys (combatants s)) ;
  for_each ks defeat_body.

(** [execute_full_turn], third loop: who managed to flee *)
Definition flee_body (timeout : Z) (entry : combatant * Z) : M unit :=
  let '(c, started_fleeing) := entry in
  now ← gets turn ;
  when (timeout <=? now - started_fleeing)%Z
    (msg MsgFled (Some c) true ;;
     remove_combatant c).

Definition flee_sweep : M unit :=
  timeout ← gets flee_timeout ;
  for_dict fleeing_combatants (flee_body timeout).

(** [execute_full_turn], the end: did one side win.  [pick] stands for
    the draw of [random.choice]. *)
Definition victory_check (pick : nat) : M unit :=
  s ← gets id ;
  let ks := akeys (combatants s) in
  let '(allies, enemies) :=
    match ks with
    | [] => ([], [])
    | k0 :: _ => get_sides (default k0 (ks !! (pick `mod` length ks))) s
    end in
  match enemies with
  | [] =>
      let knocked_out :=
        filter (fun comb => (0 < hp (world s) comb)%Z)
          (defeated_combatants s) in
      let killed :=
        filter (fun comb => (hp (world s) comb <= 0)%Z)
          (defeated_combatants s) in
      msg (MsgCombatOver allies knocked_out killed) None true ;;
      stop_combat
  | _ :: _ => mret tt
  end.

(** [execute_full_turn]; [order] stands for the outcome of
    [random.shuffle] on the keys of [combatants]. *)
Definition execute_full_turn (order : list combatant) (pick : nat)
    : M unit :=
  modify (fun s => set_turn (turn s + 1) s) ;;
  action_phase order ;;
  defeat_sweep ;;
  flee_sweep ;;
  victory_check pick.

End handler.

Arguments state World : clear implicits.
Arguments M World A : clear implicits.

(** ** A concrete game world

    Health is a table from combatants to hit points.  Combatants below
    100 are player characters, the others are NPCs.  A weapon always
    hits, for 4 points, or 8 with advantage; a stunt succeeds unless the
    actor is at disadvantage without advantage; items, equipment moves
    and the defeat hook leave the health table alone. *)
Module Scenario.

Definition World : Type := list (combatant * Z).

Definition health (w : World) (c : combatant) : Z :=
  default 0%Z (alookup c w).

#[global] Instance collaborators : Collaborators World := {|
  hp := health;
  is_pc := fun c => (c <? 100)%nat;
  at_defeat := fun _ w => w;
  weapon_at_pre_use := fun _ _ _ => true;
  weapon_use := fun _ target adv w =>
    ainsert target (health w target - (if adv then 8 else 4))%Z w;
  weapon_at_post_use := fun _ _ w => w;
  item_at_pre_use := fun _ _ _ _ => true;
  item_use := fun _ _ _ _ _ w => w;
  item_at_post_use := fun _ _ _ w => w;
  equipment_move := fun _ _ w => w;
  opposed_saving_throw := fun w _ _ _ _ adv dis => (adv || negb dis, w)
|}.

(** A fresh handler in a room, as the class attributes initialise it *)
Definition new_handler (pvp : bool) (w : World) : state World :=
  {| turn := 0;
     combatants := [];
     advantage_matrix := ∅;
     disadvantage_matrix := ∅;
     fleeing_combatants := [];
     defeated_combatants := [];
     ndb_did_action := None;
     flee_timeout := 5;
     max_action_queue_size := 1;
     allow_pvp := pvp;
     world := w;
     trace := [] |}.

(** Run a method for its effect on the state *)
Definition exec {A} (m : M World A) (s : state World) : state World :=
  (m s).2.

End Scenario.

(** ** Facts about association lists *)

Section alist_facts.
Context {K V : Type} `{EqDecision K}.
Implicit Types (k : K) (v : V) (l : list (K * V)).

Lemma alookup_None k l : alookup k l = None ↔ k ∉ akeys l.
Proof.
  unfold akeys. induction l as [|[k' v'] l IH]; csimpl.
  - split; [intros _; apply not_elem_of_nil | done].
  - rewrite not_elem_of_cons. destruct (decide (k = k')) as [->|Hne].
    + split; [done | intros [Hk _]; by destruct Hk].
    + rewrite IH. tauto.
Qed.

Lemma alookup_is_Some k l : is_Some (alookup k l) ↔ k ∈ akeys l.
Proof.
  rewrite <- not_eq_None_Some, alookup_None.
  destruct (decide (k ∈ akeys l)); naive_solver.
Qed.

Lemma alookup_elem_of k v l : alookup k l = Some v → (k, v) ∈ l.
Proof.
  induction l as [|[k' v'] l IH]; csimpl; [done|].
  destruct (decide (k = k')) as [->|]; intros Hl.
  - injection Hl as ->. apply list_elem_of_here.
  - apply list_elem_of_further; auto.
Qed.


Lemma aremove_notin k l : k ∉ akeys l → aremove k l = l.
Proof.
  unfold akeys. induction l as [|[k' v'] l IH]; csimpl; [done|].
  rewrite not_elem_of_cons. intros [Hne Hl].
  rewrite decide_False by done. by rewrite IH.
Qed.

Lemma alookup_aremove k k' l :
  alookup k (aremove k' l) = if decide (k = k') then None else alookup k l.
Proof.
  induction l as [|[k0 v0] l IH]; csimpl.
  - by destruct (decide (k = k')).
  - destruct (decide (k' = k0)) as [->|Hne]; csimpl.
    + rewrite IH. destruct (decide (k = k0)); done.
    + rewrite IH. destruct (decide (k = k0)) as [->|]; [|done].
      by rewrite decide_False.
Qed.

Lemma akeys_aremove k l : akeys (aremove k l) = filter (fun x => x ≠ k) (akeys l).
Proof.
  unfold akeys. induction l as [|[k0 v0] l IH]; csimpl; [done|].
  destruct (decide (k = k0)) as [->|Hne].
  - rewrite filter_cons_False by (intros Hk; by apply Hk). done.
  - rewrite filter_cons_True by (intros ->; by apply Hne).
    rewrite <- IH. done.
Qed.

Lemma not_elem_of_akeys_aremove k l : k ∉ akeys (aremove k l).
Proof.
  rewrite akeys_aremove, list_elem_of_filter. intros [Hk _]. by apply Hk.
Qed.

Lemma elem_of_akeys_aremove k k' l :
  k ∈ akeys (aremove k' l) ↔ k ≠ k' ∧ k ∈ akeys l.
Proof. by rewrite akeys_aremove, list_elem_of_filter. Qed.

Lemma length_aremove_lt k l :
  k ∈ akeys l → (length (aremove k l) < length l)%nat.
Proof.
  unfold akeys. induction l as [|[k0 v0] l IH]; csimpl.
  - intros Hin. by apply elem_of_nil in Hin.
  - intros Hin. destruct (decide (k = k0)) as [->|Hne]; csimpl.
    + assert (length (aremove k0 l) ≤ length l)%nat; [|lia].
      clear. induction l as [|[k1 v1] l IH]; csimpl; [lia|].
      destruct (decide (k0 = k1)); csimpl; lia.
    + apply elem_of_cons in Hin as [?|Hin]; [done|].
      specialize (IH Hin). lia.
Qed.

Lemma NoDup_akeys_aremove k l : NoDup (akeys l) → NoDup (akeys (aremove k l)).
Proof. rewrite akeys_aremove. apply NoDup_filter. Qed.

Lemma akeys_ainsert_elem k v l : k ∈ akeys l → akeys (ainsert k v l) = akeys l.
Proof.
  unfold akeys. induction l as [|[k0 v0] l IH]; csimpl.
  - intros Hin. by apply elem_of_nil in Hin.
  - intros Hin. destruct (decide (k = k0)) as [->|Hne]; csimpl; [done|].
    apply elem_of_cons in Hin as [?|Hin]; [done|]. by rewrite IH.
Qed.

Lemma akeys_ainsert_notin k v l :
  k ∉ akeys l → akeys (ainsert k v l) = akeys l ++ [k].
Proof.
  unfold akeys. induction l as [|[k0 v0] l IH]; csimpl; [done|].
  rewrite not_elem_of_cons. intros [Hne Hl].
  rewrite decide_False by done. csimpl. by rewrite IH.
Qed.

Lemma alookup_ainsert k k' v l :
  alookup k (ainsert k' v l) = if decide (k = k') then Some v else alookup k l.
Proof.
  induction l as [|[k0 v0] l IH]; csimpl.
  - destruct (decide (k = k')); done.
  - destruct (decide (k' = k0)) as [->|Hne]; csimpl.
    + destruct (decide (k = k0)); done.
    + rewrite IH. destruct (decide (k = k0)) as [->|]; [|done].
      by rewrite decide_False.
Qed.

Lemma ainsert_id k v l : alookup k l = Some v → ainsert k v l = l.
Proof.
  induction l as [|[k0 v0] l IH]; csimpl; [done|].
  destruct (decide (k = k0)) as [->|Hne]; intros Hl.
  - by injection Hl as ->.
  - by rewrite IH.
Qed.

Lemma length_ainsert_elem k v l :
  k ∈ akeys l → length (ainsert k v l) = length l.
Proof.
  intros Hin. apply (akeys_ainsert_elem k v) in Hin.
  apply (f_equal length) in Hin. unfold akeys in Hin.
  by rewrite !length_fmap in Hin.
Qed.

Lemma NoDup_akeys_ainsert k v l :
  NoDup (akeys l) → NoDup (akeys (ainsert k v l)).
Proof.
  intros Hnd. destruct (decide (k ∈ akeys l)) as [Hin|Hin].
  - by rewrite akeys_ainsert_elem.
  - rewrite akeys_ainsert_notin by done.
    apply NoDup_app. split_and!; [done| |apply NoDup_singleton].
    intros x Hx Hx'. apply list_elem_of_singleton in Hx' as ->. done.
Qed.
End alist_facts.

(** ** The advantage ledger *)

Section ledger.
Context {World : Type} `{Collaborators World}.
Implicit Types (s : state World) (r t : combatant).

(** No grant of [r] against [t] is pending in the advantage matrix. *)
Definition no_advantage r t s : Prop :=
  default ∅ (advantage_matrix s !! r) !! t = None.

(** Successive [has_advantage] calls, given as (recipient, target) pairs *)
Definition consume_all (ps : list (combatant * combatant)) s : state World :=
  foldl (fun s' p => (has_advantage p.1 p.2 s').2) s ps.

Lemma has_advantage_fleeing r t s :
  fleeing_combatants (has_advantage r t s).2 = fleeing_combatants s.
Proof. done. Qed.

Lemma has_advantage_consumes r t r' t' s :
  no_advantage r t s ∨ (r' = r ∧ t' = t) →
  no_advantage r t (has_advantage r' t' s).2.
Proof.
  unfold no_advantage, has_advantage, matrix_pop. simpl.
  intros Hs. destruct (decide (r' = r)) as [->|Hr].
  - rewrite lookup_insert_eq. simpl.
    destruct (decide (t' = t)) as [->|Ht].
    + apply lookup_delete_eq.
    + rewrite lookup_delete_ne by done.
      destruct Hs as [Hs|[_ ?]]; done.
  - rewrite lookup_insert_ne by done.
    destruct Hs as [Hs|[? _]]; done.
Qed.

Lemma consume_all_consumed r t ps s :
  no_advantage r t s → no_advantage r t (consume_all ps s).
Proof.
  revert s. induction ps as [|[r' t'] ps IH]; simpl; [done|].
  intros s Hs. apply IH. apply has_advantage_consumes. by left.
Qed.

Lemma consume_all_fleeing ps s :
  fleeing_combatants (consume_all ps s) = fleeing_combatants s.
Proof.
  revert s. induction ps as [|[r' t'] ps IH]; simpl; [done|].
  intros s. by rewrite IH.
Qed.

Lemma has_advantage_granted r t s :
  (has_advantage r t (give_advantage r t s).2).1 = inr true.
Proof.
  unfold has_advantage, give_advantage, matrix_pop, matrix_set. simpl.
  rewrite lookup_insert_eq. simpl. by rewrite lookup_insert_eq.
Qed.

Lemma has_advantage_nothing r t s :
  no_advantage r t s → t ∉ akeys (fleeing_combatants s) →
  (has_advantage r t s).1 = inr false.
Proof.
  unfold no_advantage, has_advantage, matrix_pop. simpl.
  intros -> Hf. by rewrite bool_decide_eq_false_2.
Qed.

(** C8. Ledger one-shot law: when [t] is not fleeing, the first
    [has_advantage r t] after [give_advantage r t] returns true, and
    after it, whatever further advantage reads take place, the next
    [has_advantage r t] returns false. *)
Theorem advantage_one_shot r t s (later : list (combatant * combatant)) :
  t ∉ akeys (fleeing_combatants s) →
  let granted := (give_advantage r t s).2 in
  let consumed := (has_advantage r t granted).2 in
  (has_advantage r t granted).1 = inr true ∧
  (has_advantage r t (consume_all later consumed)).1 = inr false.
Proof.
  intros Hf granted consumed. split.
  - apply has_advantage_granted.
  - apply has_advantage_nothing.
    + apply consume_all_consumed.
      apply has_advantage_consumes. by right.
    + by rewrite consume_all_fleeing.
Qed.

(** C9. Fleeing override: [has_advantage r t] returns true whenever the
    target is fleeing and [has_disadvantage r t] returns true whenever
    the recipient is fleeing, whatever the matrices hold. *)
Theorem fleeing_override r t s :
  (t ∈ akeys (fleeing_combatants s) →
   (has_advantage r t s).1 = inr true) ∧
  (r ∈ akeys (fleeing_combatants s) →
   (has_disadvantage r t s).1 = inr true).
Proof.
  unfold has_advantage, has_disadvantage, matrix_pop. simpl.
  split; intros Hf; rewrite bool_decide_eq_true_2 by done;
    by rewrite orb_true_r.
Qed.

End ledger.

(** ** Membership and queues *)

Ltac unfold_monad :=
  unfold lookup_or_KeyError, modify_world, msg, force_repeat, emit, when,
    modify, gets, raise, mbind, M_bind, mret, M_ret in *.

Section queues.
Context {World : Type} `{Collaborators World}.
Implicit Types (s : state World) (c : combatant) (a : action_dict).

Definition registered c s : Prop := c ∈ akeys (combatants s).

(** C5, as the handler implements it.  An operation on a combatant
    that is not registered raises the lookup error of the [combatants]
    mapping, Python's [KeyError], which names the unknown combatant;
    this holds for [queue_action] and for [get_next_action_dict], and
    nothing has been changed when it is raised.  Only
    [remove_combatant] accepts a non-member: it returns normally and
    leaves the handler as it was. *)
Theorem unregistered_combatant_error c a (rotate_queue : bool) s :
  ¬ registered c s →
  queue_action c a s = (inl (KeyError c), s) ∧
  get_next_action_dict c rotate_queue s = (inl (KeyError c), s) ∧
  (remove_combatant c s).1 = inr tt ∧
  set_trace (trace s) (remove_combatant c s).2 = s.
Proof.
  unfold registered. intros Hc.
  assert (alookup c (combatants s) = None) as Hl by by apply alookup_None.
  unfold queue_action, get_next_action_dict, remove_combatant.
  unfold_monad. rewrite Hl. split_and!; try done.
  simpl. rewrite aremove_notin by done. by destruct s.
Qed.

Lemma size_did_action c :
  size (default (∅ : gset combatant) None ∪ {[c]}) = 1%nat.
Proof.
  change (size ((∅ : gset combatant) ∪ {[c]}) = 1%nat).
  rewrite (left_id_L ∅ (∪)). by rewrite size_singleton.
Qed.

(** With at least two combatants and the [ndb.did_action] attribute
    unset (nothing in the handler ever sets it), [queue_action] does not
    call [force_repeat], whoever queued before. *)
Lemma queue_action_waits c a s :
  ndb_did_action s = None → (2 ≤ length (combatants s))%nat →
  trace (queue_action c a s).2 = trace s ∧
  ndb_did_action (queue_action c a s).2 = None ∧
  length (combatants (queue_action c a s).2) = length (combatants s).
Proof.
  intros Hndb Hlen. unfold queue_action. unfold_monad.
  destruct (alookup c (combatants s)) as [q|] eqn:Hq; [|done].
  cbn [ndb_did_action set_combatants combatants fst snd].
  rewrite Hndb, size_did_action.
  rewrite length_ainsert_elem
    by (apply alookup_is_Some; by rewrite Hq).
  destruct (Nat.leb_spec (length (combatants s)) 1) as [Hle|_]; [lia|].
  cbn [trace ndb_did_action set_combatants combatants fst snd].
  rewrite length_ainsert_elem
    by (apply alookup_is_Some; by rewrite Hq).
  done.
Qed.

(** The defender of a stunt, in the words of the specification *)
Definition defender_spec (recipient target : combatant) (advantage : bool)
    : combatant :=
  if decide (recipient = target) then target
  else if advantage then target else recipient.

(** C7. The defender of the opposed check of a stunt is the target when
    recipient and target are the same, otherwise the target when the
    stunt grants advantage, otherwise the recipient; executing the stunt
    first consults the ledger and the dice against that defender and
    announces the attempt on that defender. *)
Theorem stunt_defender_correct (attacker recipient target : combatant)
    (advantage : bool) (stunt_type defense_type : ability) s :
  let defender := defender_spec recipient target advantage in
  stunt_defender recipient target advantage = defender ∧
  let r1 := has_advantage attacker defender s in
  let r2 := has_disadvantage attacker defender r1.2 in
  ∃ adv dis rest,
    r1.1 = inr adv ∧ r2.1 = inr dis ∧
    world (execute attacker
             (Stunt recipient target advantage stunt_type defense_type) s).2
    = (opposed_saving_throw (world s) attacker defender
         stunt_type defense_type adv dis).2 ∧
    trace (execute attacker
             (Stunt recipient target advantage stunt_type defense_type) s).2
    = trace s ++ EvMsg (MsgStuntAttempt defender) (Some attacker) true
              :: rest.
Proof.
  intros defender.
  assert (stunt_defender recipient target advantage = defender) as Hd.
  { unfold stunt_defender, defender, defender_spec.
    destruct (decide (recipient = target)) as [->|]; done. }
  split; [done|]. simpl.
  unfold CombatActionStunt_execute. rewrite Hd.
  unfold has_advantage, has_disadvantage, matrix_pop. simpl.
  eexists _, _. unfold roll_opposed_saving_throw. unfold_monad. simpl.
  destruct (opposed_saving_throw _ _ _ _ _ _ _) as [ok w] eqn:Hthrow.
  simpl. destruct ok.
  - unfold queue_action. unfold_monad.
    destruct advantage, (decide (recipient = attacker)); simpl;
      (destruct (alookup attacker (combatants s)) as [q|]; simpl;
       [destruct (_ <=? _)%nat; simpl|]);
      eexists; split_and!; try done;
      try (by rewrite Hthrow); rewrite <- ?app_assoc; reflexivity.
  - eexists. split_and!; try done; try (by rewrite Hthrow).
    simpl. rewrite <- ?app_assoc. reflexivity.
Qed.

End queues.

(** ** Reasoning about handler methods

    [steps R m]: whatever [m] returns or raises, the state it ends in is
    [R]-related to the state it started from. *)

Section reasoning.
Context {World : Type} `{Collaborators World}.
Implicit Types (s : state World).

Definition steps {A} (R : relation (state World)) (m : M World A) : Prop :=
  ∀ s, R s (m s).2.

Lemma bind_inr {A B} (m : M World A) (k : A → M World B) s b s' :
  (m ≫= k) s = (inr b, s') →
  ∃ a s1, m s = (inr a, s1) ∧ k a s1 = (inr b, s').
Proof.
  unfold mbind, M_bind. destruct (m s) as [[e|a] s1]; [done|].
  intros Hk. by exists a, s1.
Qed.

Lemma bind_eq {A B} (m : M World A) (k : A → M World B) s a s1 :
  m s = (inr a, s1) → (m ≫= k) s = k a s1.
Proof. unfold mbind, M_bind. by intros ->. Qed.

Section steps_rules.
Context (R : relation (state World)) `{!PreOrder R}.

Lemma steps_ret {A} (a : A) : steps R (mret a).
Proof. intros s. simpl. reflexivity. Qed.

Lemma steps_bind {A B} (m : M World A) (k : A → M World B) :
  steps R m → (∀ a, steps R (k a)) → steps R (m ≫= k).
Proof.
  intros Hm Hk s. unfold mbind, M_bind.
  specialize (Hm s). destruct (m s) as [[e|a] s1]; [done|].
  simpl in Hm. etrans; [exact Hm|]. apply Hk.
Qed.

Lemma steps_gets {A} (f : state World → A) : steps R (gets f).
Proof. intros s. simpl. reflexivity. Qed.

Lemma steps_raise {A} (e : exn) : steps R (raise (A:=A) e).
Proof. intros s. simpl. reflexivity. Qed.

Lemma steps_modify (f : state World → state World) :
  (∀ s, R s (f s)) → steps R (modify f).
Proof. intros Hf s. apply Hf. Qed.

Lemma steps_when (b : bool) (m : M World unit) :
  steps R m → steps R (when b m).
Proof. destruct b; [done|]. intros _. apply steps_ret. Qed.

Lemma steps_lookup {V} c (view : state World → list (combatant * V)) :
  steps R (lookup_or_KeyError c view).
Proof.
  intros s. unfold lookup_or_KeyError.
  destruct (alookup c (view s)); simpl; reflexivity.
Qed.

Lemma steps_for_each {A} (l : list A) (body : A → M World unit) :
  (∀ x, x ∈ l → steps R (body x)) → steps R (for_each l body).
Proof.
  induction l as [|x l IH]; simpl; intros Hbody.
  - apply steps_ret.
  - apply steps_bind.
    + apply Hbody, list_elem_of_here.
    + intros _. apply IH. intros y Hy.
      apply Hbody. by apply list_elem_of_further.
Qed.

Lemma steps_dict_iter {A} (view : state World → list A) used pos todo
    (body : A → M World unit) :
  (∀ x, steps R (body x)) → steps R (dict_iter view used pos todo body).
Proof.
  intros Hbody. revert pos.
  induction todo as [|todo IH]; intros pos s; simpl.
  - destruct (negb _); simpl; reflexivity.
  - destruct (negb _); simpl; [reflexivity|].
    destruct (view s !! pos) as [x|]; simpl; [|reflexivity].
    apply (steps_bind (body x) (fun _ => dict_iter _ _ _ _ _)); auto.
Qed.

Lemma steps_for_dict {A} (view : state World → list A)
    (body : A → M World unit) :
  (∀ x, steps R (body x)) → steps R (for_dict view body).
Proof. intros Hbody s. unfold for_dict. by apply steps_dict_iter. Qed.
End steps_rules.

End reasoning.

(** ** What an action may touch *)

(** The [action.execute()] calls recorded in a trace *)
Definition executed (tr : list event) : list (combatant * action_dict) :=
  omap (fun e => match e with EvExecute c a => Some (c, a) | _ => None end) tr.

Lemma executed_app tr1 tr2 : executed (tr1 ++ tr2) = executed tr1 ++ executed tr2.
Proof. apply omap_app. Qed.

Section actions.
Context {World : Type} `{Collaborators World}.
Implicit Types (s : state World) (c d actor : combatant) (a : action_dict).


(** The action the next turn will execute for [c] *)
Definition next_action c s : action_dict :=
  match alookup c (combatants s) with
  | Some (a :: _) => a
  | _ => fallback_action_dict
  end.

(** What the code run on behalf of [actor] leaves alone: membership,
    the queue and the flight of everybody else, the turn counter, the
    defeated list. *)
Record act_frame actor s s' : Prop := {
  af_keys : akeys (combatants s') = akeys (combatants s);
  af_queue c : c ≠ actor →
    alookup c (combatants s') = alookup c (combatants s);
  af_flee c : c ≠ actor →
    alookup c (fleeing_combatants s') = alookup c (fleeing_combatants s);
  af_flee_nodup :
    NoDup (akeys (fleeing_combatants s)) →
    NoDup (akeys (fleeing_combatants s'));
  af_turn : turn s' = turn s;
  af_timeout : flee_timeout s' = flee_timeout s;
  af_defeated : defeated_combatants s' = defeated_combatants s;
  af_executed : executed (trace s') = executed (trace s)
}.

#[global] Instance act_frame_preorder actor : PreOrder (act_frame actor).
Proof.
  split.
  - intros s. by split.
  - intros s1 s2 s3 H12 H23. split.
    + rewrite (af_keys _ _ _ H23). apply (af_keys _ _ _ H12).
    + intros c Hc. rewrite (af_queue _ _ _ H23 c Hc).
      apply (af_queue _ _ _ H12 c Hc).
    + intros c Hc. rewrite (af_flee _ _ _ H23 c Hc).
      apply (af_flee _ _ _ H12 c Hc).
    + intros Hnd. apply (af_flee_nodup _ _ _ H23), (af_flee_nodup _ _ _ H12), Hnd.
    + rewrite (af_turn _ _ _ H23). apply (af_turn _ _ _ H12).
    + rewrite (af_timeout _ _ _ H23). apply (af_timeout _ _ _ H12).
    + rewrite (af_defeated _ _ _ H23). apply (af_defeated _ _ _ H12).
    + rewrite (af_executed _ _ _ H23). apply (af_executed _ _ _ H12).
Qed.

(** [acts actor m]: [m] stays within the frame of [actor], and returns
    normally when [actor] is registered. *)
Definition acts {A} actor (m : M World A) : Prop :=
  ∀ s, act_frame actor s (m s).2 ∧
       (registered actor s → ∃ v, (m s).1 = inr v).

Lemma registered_frame actor s s' :
  act_frame actor s s' → registered actor s → registered actor s'.
Proof. unfold registered. intros [Hk _ _ _ _ _ _ _]. by rewrite Hk. Qed.

Lemma acts_ret {A} actor (v : A) : acts actor (mret v).
Proof. intros s. split; [reflexivity|]. intros _. by exists v. Qed.

Lemma acts_bind {A B} actor (m : M World A) (k : A → M World B) :
  acts actor m → (∀ v, acts actor (k v)) → acts actor (m ≫= k).
Proof.
  intros Hm Hk s. destruct (Hm s) as [Hf Hr].
  unfold mbind, M_bind. destruct (m s) as [[e|v] s1]; simpl in *.
  - split; [done|]. intros Hreg. by destruct (Hr Hreg).
  - destruct (Hk v s1) as [Hf' Hr']. split; [by etrans|].
    intros Hreg. apply Hr'. by eapply registered_frame.
Qed.

Lemma acts_gets {A} actor (f : state World → A) : acts actor (gets f).
Proof. intros s. split; [reflexivity|]. intros _. by eexists. Qed.

Lemma acts_modify actor (f : state World → state World) :
  (∀ s, act_frame actor s (f s)) → acts actor (modify f).
Proof. intros Hf s. split; [apply Hf|]. intros _. by eexists. Qed.

Lemma acts_when actor (b : bool) (m : M World unit) :
  acts actor m → acts actor (when b m).
Proof. destruct b; [done|]. intros _. apply acts_ret. Qed.

Lemma acts_emit actor e :
  (∀ c a, e ≠ EvExecute c a) → acts actor (emit e).
Proof.
  intros He. apply acts_modify. intros s. split; try done.
  simpl. rewrite executed_app. destruct e; simpl;
    try (by rewrite app_nil_r). by destruct (He c a).
Qed.

Lemma acts_msg actor m who broadcast : acts actor (msg m who broadcast).
Proof. by apply acts_emit. Qed.

Lemma acts_modify_world actor f : acts actor (modify_world f).
Proof. apply acts_modify. intros s. by split. Qed.

Lemma acts_has_advantage actor r t : acts actor (has_advantage r t).
Proof.
  intros s. unfold has_advantage.
  destruct (matrix_pop _ _ _) as [b m]. split; [by split|]. by eexists.
Qed.

Lemma acts_has_disadvantage actor r t : acts actor (has_disadvantage r t).
Proof.
  intros s. unfold has_disadvantage.
  destruct (matrix_pop _ _ _) as [b m]. split; [by split|]. by eexists.
Qed.

Lemma acts_has_advantage_target actor r t :
  acts actor (has_advantage_target r t).
Proof.
  destruct t as [t|]; simpl; [apply acts_has_advantage|].
  apply acts_bind; [|intros; apply acts_ret].
  apply acts_modify. intros s. by split.
Qed.

Lemma acts_has_disadvantage_target actor r t :
  acts actor (has_disadvantage_target r t).
Proof.
  destruct t as [t|]; simpl; [apply acts_has_disadvantage|].
  apply acts_bind; [|intros; apply acts_gets].
  apply acts_modify. intros s. by split.
Qed.

Lemma acts_give_advantage actor r t : acts actor (give_advantage r t).
Proof. apply acts_modify. intros s. by split. Qed.

Lemma acts_give_disadvantage actor r t : acts actor (give_disadvantage r t).
Proof. apply acts_modify. intros s. by split. Qed.

Lemma acts_roll actor d st dt adv dis :
  acts actor (roll_opposed_saving_throw actor d st dt adv dis).
Proof.
  intros s. unfold roll_opposed_saving_throw.
  destruct (opposed_saving_throw _ _ _ _ _ _ _) as [ok w].
  split; [by split|]. by eexists.
Qed.

Lemma acts_lookup_queue actor :
  acts actor (lookup_or_KeyError actor combatants).
Proof.
  intros s. unfold lookup_or_KeyError, registered.
  destruct (alookup actor (combatants s)) as [q|] eqn:Hq; simpl.
  - split; [reflexivity|]. by eexists.
  - split; [reflexivity|]. intros Hreg.
    apply alookup_None in Hq. done.
Qed.

(** Replacing the queue of a registered [actor] *)
Lemma set_queue_frame actor q s :
  registered actor s →
  act_frame actor s
    (set_combatants (ainsert actor q (combatants s)) s).
Proof.
  unfold registered. intros Hreg. split; simpl; try done.
  - by apply akeys_ainsert_elem.
  - intros c Hc. by rewrite alookup_ainsert, decide_False.
Qed.

Lemma acts_force_repeat actor : acts actor force_repeat.
Proof. by apply acts_emit. Qed.

Lemma acts_queue_action actor a : acts actor (queue_action actor a).
Proof.
  intros s. unfold queue_action.
  destruct (alookup actor (combatants s)) as [q|] eqn:Hq.
  - assert (registered actor s) as Hreg
      by (apply alookup_is_Some; by rewrite Hq).
    rewrite (bind_eq _ _ s q s)
      by (unfold lookup_or_KeyError; by rewrite Hq).
    rewrite (bind_eq _ _ s (max_action_queue_size s) s) by done.
    erewrite bind_eq by reflexivity.
    erewrite bind_eq by reflexivity.
    erewrite bind_eq by reflexivity.
    match goal with |- context [when ?b force_repeat ?s1] =>
      destruct (acts_when actor b force_repeat (acts_force_repeat actor) s1)
        as [Hf Hr]
    end.
    split.
    + etrans; [|exact Hf]. by apply set_queue_frame.
    + intros _. apply Hr. eapply registered_frame; [|done].
      by apply set_queue_frame.
  - unfold lookup_or_KeyError, mbind, M_bind. rewrite Hq. simpl.
    split; [reflexivity|]. intros Hreg.
    apply alookup_None in Hq. done.
Qed.

Lemma acts_get_next_action_dict actor (rotate_queue : bool) :
  acts actor (get_next_action_dict actor rotate_queue).
Proof.
  intros s. unfold get_next_action_dict.
  destruct (alookup actor (combatants s)) as [q|] eqn:Hq.
  - assert (registered actor s) as Hreg
      by (apply alookup_is_Some; by rewrite Hq).
    rewrite (bind_eq _ _ s q s)
      by (unfold lookup_or_KeyError; by rewrite Hq).
    destruct rotate_queue; simpl; unfold_monad; simpl.
    + split; [by apply set_queue_frame|]. by eexists.
    + split; [reflexivity|]. by eexists.
  - unfold lookup_or_KeyError, mbind, M_bind. rewrite Hq. simpl.
    split; [reflexivity|]. intros Hreg.
    apply alookup_None in Hq. done.
Qed.

Ltac acts_steps :=
  repeat first
    [ apply acts_ret | apply acts_gets | apply acts_msg
    | apply acts_modify_world | apply acts_has_advantage
    | apply acts_has_disadvantage | apply acts_has_advantage_target
    | apply acts_has_disadvantage_target | apply acts_give_advantage
    | apply acts_give_disadvantage | apply acts_roll
    | apply acts_queue_action | apply acts_when
    | apply acts_bind; [|intros ?] ].

Lemma acts_attack actor target :
  acts actor (CombatActionAttack_execute actor target).
Proof. unfold CombatActionAttack_execute. acts_steps. Qed.

Lemma acts_stunt actor recipient target advantage stunt_type defense_type :
  acts actor (CombatActionStunt_execute actor recipient target advantage
                stunt_type defense_type).
Proof.
  unfold CombatActionStunt_execute. acts_steps.
  destruct v1; repeat case_match; acts_steps.
Qed.

Lemma acts_use_item actor it target :
  acts actor (CombatActionUseItem_execute actor it target).
Proof. unfold CombatActionUseItem_execute. acts_steps. Qed.

Lemma acts_wield actor it : acts actor (CombatActionWield_execute actor it).
Proof. unfold CombatActionWield_execute. acts_steps. Qed.

Lemma start_fleeing_frame actor s :
  act_frame actor s
    (set_fleeing_combatants
       (ainsert actor (turn s) (fleeing_combatants s)) s).
Proof.
  split; simpl; try done.
  - intros c Hc. by rewrite alookup_ainsert, decide_False.
  - apply NoDup_akeys_ainsert.
Qed.

Lemma stop_fleeing_frame actor s :
  act_frame actor s
    (set_fleeing_combatants (aremove actor (fleeing_combatants s)) s).
Proof.
  split; simpl; try done.
  - intros c Hc. by rewrite alookup_aremove, decide_False.
  - apply NoDup_akeys_aremove.
Qed.

Lemma when_modify (b : bool) (f : state World → state World) s :
  when b (modify f) s = (inr tt, (when b (modify f) s).2).
Proof. by destruct b. Qed.

Lemma acts_flee actor : acts actor (CombatActionFlee_execute actor).
Proof.
  intros s. unfold CombatActionFlee_execute.
  rewrite (bind_eq _ _ s (fleeing_combatants s) s) by done.
  set (s1 := (when (negb (bool_decide (actor ∈ akeys (fleeing_combatants s))))
               (modify (fun s0 => set_fleeing_combatants
                  (ainsert actor (turn s0) (fleeing_combatants s0)) s0)) s).2).
  assert (act_frame actor s s1) as Hf1.
  { subst s1. destruct (bool_decide _); simpl; [reflexivity|].
    apply start_fleeing_frame. }
  assert (is_Some (alookup actor (fleeing_combatants s1))) as [t Ht].
  { subst s1. destruct (bool_decide _) eqn:Hb; simpl.
    - apply alookup_is_Some. by apply bool_decide_eq_true in Hb.
    - rewrite alookup_ainsert, decide_True by done. by eexists. }
  rewrite (bind_eq _ _ _ _ _ (when_modify _ _ s)).
  fold s1. erewrite bind_eq by reflexivity.
  erewrite bind_eq
    by (unfold lookup_or_KeyError; rewrite Ht; reflexivity).
  erewrite bind_eq by reflexivity.
  match goal with |- context [when ?b ?m s1] =>
    destruct (acts_when actor b m (acts_msg actor _ _ _) s1) as [Hf Hr]
  end.
  split; [by etrans|]. intros Hreg. apply Hr.
  by eapply registered_frame.
Qed.

Lemma acts_execute actor a : acts actor (execute actor a).
Proof.
  destruct a; simpl;
    auto using acts_ret, acts_attack, acts_stunt, acts_use_item,
      acts_wield, acts_flee.
Qed.

Lemma acts_post_execute actor a : acts actor (post_execute actor a).
Proof.
  destruct a; simpl; try apply acts_ret;
    apply acts_modify; intros s; apply stop_fleeing_frame.
Qed.

(** *** One combatant's move *)

Lemma flee_execute_state actor s :
  combatants (CombatActionFlee_execute actor s).2 = combatants s ∧
  fleeing_combatants (CombatActionFlee_execute actor s).2
  = (if bool_decide (actor ∈ akeys (fleeing_combatants s))
     then fleeing_combatants s
     else ainsert actor (turn s) (fleeing_combatants s)).
Proof.
  unfold CombatActionFlee_execute. unfold_monad.
  destruct (bool_decide (actor ∈ akeys (fleeing_combatants s))) eqn:Hb;
    simpl.
  - apply bool_decide_eq_true in Hb. apply alookup_is_Some in Hb as [t Ht].
    rewrite Ht. by destruct (0 <? _)%Z.
  - rewrite alookup_ainsert, decide_True by done.
    by destruct (0 <? _)%Z.
Qed.



Lemma get_next_action_dict_eq d s :
  registered d s →
  ∃ q, alookup d (combatants s) = Some q ∧
    get_next_action_dict d true s
    = (inr (next_action d s),
       set_combatants (ainsert d (deque_rotate q) (combatants s)) s).
Proof.
  intros Hreg. apply alookup_is_Some in Hreg as [q Hq].
  exists q. split; [done|].
  unfold get_next_action_dict, next_action. unfold_monad.
  rewrite Hq. by destruct q.
Qed.


(** *** The action loop of a turn *)




End actions.

(** ** The sweeps at the end of a turn *)

Section sweeps.
Context {World : Type} `{Collaborators World}.
Implicit Types (s : state World) (c d : combatant).



(** What the sweeps and the teardown leave alone: they only remove
    combatants, extend the defeated list and the trace. *)
Record shrinks s s' : Prop := {
  sh_turn : turn s' = turn s;
  sh_timeout : flee_timeout s' = flee_timeout s;
  sh_fleeing : fleeing_combatants s' = fleeing_combatants s;
  sh_keys c : c ∈ akeys (combatants s') → c ∈ akeys (combatants s);
  sh_queue c :
    c ∈ akeys (combatants s') →
    alookup c (combatants s') = alookup c (combatants s);
  sh_nodup :
    NoDup (akeys (combatants s)) → NoDup (akeys (combatants s'));
  sh_defeated c :
    c ∈ defeated_combatants s → c ∈ defeated_combatants s';
  sh_trace e : e ∈ trace s → e ∈ trace s'
}.

#[global] Instance shrinks_preorder : PreOrder shrinks.
Proof.
  split.
  - intros s. by split.
  - intros s1 s2 s3 H12 H23. split.
    + rewrite (sh_turn _ _ H23). apply (sh_turn _ _ H12).
    + rewrite (sh_timeout _ _ H23). apply (sh_timeout _ _ H12).
    + rewrite (sh_fleeing _ _ H23). apply (sh_fleeing _ _ H12).
    + intros c Hc. by apply (sh_keys _ _ H12), (sh_keys _ _ H23).
    + intros c Hc. rewrite (sh_queue _ _ H23 c Hc).
      by apply (sh_queue _ _ H12), (sh_keys _ _ H23).
    + intros Hnd. by apply (sh_nodup _ _ H23), (sh_nodup _ _ H12).
    + intros c Hc. by apply (sh_defeated _ _ H23), (sh_defeated _ _ H12).
    + intros e He. by apply (sh_trace _ _ H23), (sh_trace _ _ H12).
Qed.






Lemma steps_modify_world f : steps shrinks (modify_world f).
Proof. apply steps_modify. intros s. by split. Qed.

(** *** The defeat sweep *)




(** *** The flight sweep *)






(** *** The victory check *)


(** *** The teardown *)







End sweeps.

(** ** A full turn *)

Section turns.
Context {World : Type} `{Collaborators World}.
Implicit Types (s : state World) (c d : combatant).

(** The state when the actions of the turn start *)
Definition turn_started s : state World := set_turn (turn s + 1) s.



Lemma action_phase_app before after s :
  action_phase (before ++ after) s
  = (action_phase before ;; action_phase after) s.
Proof.
  unfold action_phase. revert s.
  induction before as [|d before IH]; intros s; simpl.
  - done.
  - unfold mbind, M_bind in *.
    destruct (execute_next_action d s) as [[e|[]] s1]; [done|].
    apply IH.
Qed.


End turns.

(** ** Flight over several turns *)

(** One round of combat: what is queued while the turn is open, then the
    outcome of the shuffle and of the random choice of its resolution. *)
Record round := {
  submissions : list (combatant * action_dict);
  order : list combatant;
  pick : nat
}.

Section flight.
Context {World : Type} `{Collaborators World}.
Implicit Types (s : state World) (c d : combatant) (r : round).

(** The [queue_action] calls of an open turn, one after the other *)
Definition submit_all (subs : list (combatant * action_dict)) s
    : state World :=
  foldl (fun s' p => (queue_action p.1 p.2 s').2) s subs.

Definition play_round r s : (exn + unit) * state World :=
  execute_full_turn (order r) (pick r) (submit_all (submissions r) s).

Fixpoint play (rs : list round) s : state World :=
  match rs with
  | [] => s
  | r :: rs' => play rs' (play_round r s).2
  end.

(** Whatever [c] queues among [subs] is [Flee]. *)
Definition only_flees c (subs : list (combatant * action_dict)) : Prop :=
  Forall (fun sub => sub.1 = c → sub.2 = Flee) subs.


(** *** Queues that hold nothing but [Flee] *)





(** *** What queueing leaves alone *)

Lemma queue_action_flight d a s :
  fleeing_combatants (queue_action d a s).2 = fleeing_combatants s ∧
  turn (queue_action d a s).2 = turn s.
Proof.
  unfold queue_action. unfold_monad.
  destruct (alookup d (combatants s)); simpl; [|done].
  by destruct (_ <=? _)%nat.
Qed.




(** *** The turns of a flight *)










End flight.

(** ** Concrete combats *)

Import Scenario.

Definition everyone_healthy : World := [(1, 10%Z); (2, 10%Z); (200, 10%Z)].

(** [add_combatant] for each of [cs] *)
Definition register (cs : list combatant) (s : state World) : state World :=
  foldl (fun s' c => exec (add_combatant c) s') s cs.

(** Two player characters, 1 and 2, against the NPC 200 *)
Definition three_registered : state World :=
  register [1; 2; 200] (new_handler false everyone_healthy).

Definition three_queued : state World :=
  submit_all [(1, Attack 200); (2, Hold); (200, Hold)] three_registered.

(** The same three in a room that allows PvP *)
Definition three_in_pvp : state World :=
  register [1; 2; 200] (new_handler true everyone_healthy).

(** A round in which nobody queues anything *)
Definition quiet_round : round :=
  {| submissions := []; order := [1; 2; 200]; pick := 0 |}.

(** Combatant 1 has queued [Flee], the others hold. *)
Definition one_flees : state World :=
  submit_all [(1, Flee); (2, Hold); (200, Hold)] three_registered.

(** The NPC 200 flees while 1 attacks it; a second NPC, 201, holds. *)
Definition npc_flees : state World :=
  submit_all [(1, Attack 200); (200, Flee); (201, Hold)]
    (register [1; 200; 201]
       (new_handler false [(1, 10%Z); (200, 10%Z); (201, 10%Z)])).

Definition npc_round : round :=
  {| submissions := []; order := [1; 200; 201]; pick := 0 |}.

(** Player character 1 attacks the wounded NPC 200, which attacks back. *)
Definition last_blow : state World :=
  submit_all [(1, Attack 200); (200, Attack 1)]
    (register [1; 200] (new_handler false [(1, 10%Z); (200, 3%Z)])).

(** C1 on the code: three combatants are registered and each of them has
    queued an action since the last resolution, yet [force_repeat] has not
    been called: the set [did_action] built by [queue_action] is dropped
    when the method returns, so it never holds more than the caller. *)
Theorem no_early_resolution :
  combatants three_queued
  = [(1, [Attack 200]); (2, [Hold]); (200, [Hold])] ∧
  trace three_queued = [] ∧
  ndb_did_action three_queued = None.
Proof. by vm_compute. Qed.

(** C4 on the code: in a room that allows PvP, [get_sides] puts the
    combatant itself into its list of allies. *)
Theorem pvp_allies_hold_self :
  get_sides 1 three_in_pvp = ([1], [2; 200]).
Proof. by vm_compute. Qed.

(** C3 on the code.  The last NPC falls and the player character 1
    survives, wounded.  The turn returns normally: the victory check
    sends its report, removes combatant 1 and calls [stop] and
    [delete], once each.  But the report names nobody as still
    standing: it lists the allies [get_sides] gives for the survivor
    drawn, and without PvP [get_sides] leaves the combatant itself
    out. *)
Theorem victory_report_omits_survivor :
  let at_check :=
    exec (action_phase [1; 200] ;; defeat_sweep ;; flee_sweep)
      (turn_started last_blow) in
  let end_of_turn := execute_full_turn [1; 200] 0 last_blow in
  akeys (combatants at_check) = [1] ∧
  hp (world at_check) 1 = 6%Z ∧
  defeated_combatants at_check = [200] ∧
  end_of_turn = victory_check 0 at_check ∧
  end_of_turn.1 = inr tt ∧
  trace end_of_turn.2
  = [EvExecute 1 (Attack 200); EvExecute 200 (Attack 1);
     EvMsg MsgDefeated (Some 200) true;
     EvMsg (MsgCombatOver [] [] [200]) None true;
     EvCmdsetRemove 1; EvStop; EvDelete] ∧
  combatants end_of_turn.2 = [].
Proof. by vm_compute. Qed.

(** C2 on the code: combatant 1 has escaped after six turns of flight,
    and the NPC 200 has been defeated in its second turn of flight; both
    still have their entry in [fleeing_combatants], and the defeated NPC
    is later reported as having fled. *)
Theorem flight_entries_outlive_combatants :
  let escaped := play (replicate 6 quiet_round) one_flees in
  let fallen := play (replicate 2 npc_round) npc_flees in
  let later := play (replicate 4 {| submissions := []; order := [1; 201];
                                     pick := 0 |}) fallen in
  (akeys (combatants escaped) = [2; 200] ∧
   defeated_combatants escaped = [] ∧
   fleeing_combatants escaped = [(1, 1%Z)]) ∧
  (akeys (combatants fallen) = [1; 201] ∧
   defeated_combatants fallen = [200] ∧
   fleeing_combatants fallen = [(200, 1%Z)]) ∧
  (turn later = 6%Z ∧ fleeing_combatants later = [(200, 1%Z)] ∧
   EvMsg MsgFled (Some 200) true ∈ trace later).
Proof.
  vm_compute. split_and!; try done.
  repeat first [apply list_elem_of_here | apply list_elem_of_further].
Qed.

(** In [last_blow], combatant 1 acts first and brings the NPC 200 to -1;
    200 is still registered when its turn comes and strikes back. *)
Lemma fallen_combatant_still_strikes :
  let after_actions := (action_phase [1; 200] (turn_started last_blow)).2 in
  executed (trace after_actions) = [(1, Attack 200); (200, Attack 1)] ∧
  hp (world after_actions) 200 = (-1)%Z ∧
  hp (world after_actions) 1 = 6%Z ∧
  akeys (combatants after_actions) = [1; 200].
Proof. by vm_compute. Qed.

(** *** Instances of the general theorems *)

Lemma advantage_one_shot_witness :
  (200 ∉ akeys (fleeing_combatants three_registered)) ∧
  (has_advantage 1 200 (give_advantage 1 200 three_registered).2).1
  = inr true ∧
  (has_advantage 1 200
     (consume_all [(2, 200); (1, 2)]
        (has_advantage 1 200
           (give_advantage 1 200 three_registered).2).2)).1
  = inr false.
Proof.
  assert (200 ∉ akeys (fleeing_combatants three_registered)) as Hf
    by apply not_elem_of_nil.
  split; [exact Hf|].
  exact (advantage_one_shot 1 200 three_registered [(2, 200); (1, 2)] Hf).
Defined.

(** The NPC 200 has started to flee. *)
Definition npc_in_flight : state World :=
  exec (CombatActionFlee_execute 200) three_registered.

Lemma fleeing_override_witness :
  200 ∈ akeys (fleeing_combatants npc_in_flight) ∧
  (has_advantage 1 200 npc_in_flight).1 = inr true ∧
  (has_disadvantage 200 1 npc_in_flight).1 = inr true.
Proof.
  assert (200 ∈ akeys (fleeing_combatants npc_in_flight)) as Hf
    by apply list_elem_of_here.
  split; [exact Hf|]. split.
  - exact (proj1 (fleeing_override 1 200 npc_in_flight) Hf).
  - exact (proj2 (fleeing_override 200 1 npc_in_flight) Hf).
Defined.

Lemma not_registered_7 : ¬ registered 7 three_registered.
Proof.
  unfold registered. intros Hin.
  repeat (apply elem_of_cons in Hin as [Hin|Hin]; [discriminate|]).
  by apply elem_of_nil in Hin.
Defined.

Lemma unregistered_combatant_error_witness :
  queue_action 7 Hold three_registered = (inl (KeyError 7), three_registered) ∧
  get_next_action_dict 7 true three_registered
  = (inl (KeyError 7), three_registered) ∧
  (remove_combatant 7 three_registered).1 = inr tt ∧
  set_trace (trace three_registered) (remove_combatant 7 three_registered).2
  = three_registered.
Proof.
  exact (unregistered_combatant_error 7 Hold true three_registered
           not_registered_7).
Defined.

Lemma NoDup_three : NoDup (akeys (combatants three_queued)).
Proof.
  change (NoDup [1; 2; 200]).
  repeat (apply NoDup_cons; split;
          [intros Hin;
           repeat (apply elem_of_cons in Hin as [Hin|Hin]; [discriminate|]);
           by apply elem_of_nil in Hin|]).
  apply NoDup_nil_2.
Defined.


Ltac by_computation :=
  lazymatch goal with
  | |- _ ∉ _ =>
      let Hin := fresh "Hin" in
      intros Hin; vm_compute in Hin;
      repeat (apply elem_of_cons in Hin as [Hin|Hin]; [discriminate|]);
      by apply elem_of_nil in Hin
  | |- NoDup _ =>
      vm_compute;
      repeat (apply NoDup_cons; split;
              [let Hin := fresh "Hin" in
               intros Hin;
               repeat (apply elem_of_cons in Hin as [Hin|Hin];
                       [discriminate|]);
               by apply elem_of_nil in Hin|]);
      apply NoDup_nil_2
  | |- only_flees _ _ =>
      repeat (apply Forall_cons; split;
              [let Heq := fresh "Heq" in
               simpl; intros Heq; first [reflexivity|discriminate Heq]|]);
      apply Forall_nil_2
  | |- _ ≠ [] => vm_compute; discriminate
  | |- _ ≡ₚ _ =>
      vm_compute;
      first [reflexivity
            |apply (bool_decide_unpack _); vm_compute; exact I]
  | |- (_ <= _)%Z => vm_compute; discriminate
  | |- _ = _ => vm_compute; reflexivity
  | |- True => exact I
  end.







(** * Further properties of the handler *)

(** ** Membership and action queues *)

Section alist_more.
Context {K V : Type} `{EqDecision K}.
Implicit Types (k : K) (v : V) (l : list (K * V)).

Lemma ainsert_ainsert k v1 v2 l :
  ainsert k v2 (ainsert k v1 l) = ainsert k v2 l.
Proof.
  induction l as [|[k0 v0] l IH]; csimpl.
  - by rewrite decide_True.
  - destruct (decide (k = k0)) as [->|Hne]; csimpl.
    + by rewrite decide_True.
    + rewrite decide_False by done. by rewrite IH.
Qed.

Lemma Forall_ainsert (P : K * V → Prop) k v l :
  Forall P l → P (k, v) → Forall P (ainsert k v l).
Proof.
  intros Hl Hkv. induction Hl as [|[k0 v0] l Hx Hl IH]; csimpl.
  - by apply Forall_cons.
  - destruct (decide (k = k0)); apply Forall_cons; auto.
Qed.

Lemma Forall_aremove (P : K * V → Prop) k l :
  Forall P l → Forall P (aremove k l).
Proof.
  intros Hl. induction Hl as [|[k0 v0] l Hx Hl IH]; csimpl; [done|].
  destruct (decide (k = k0)); [done|]. by apply Forall_cons.
Qed.

Lemma Forall_alookup (P : K * V → Prop) k v l :
  Forall P l → alookup k l = Some v → P (k, v).
Proof.
  intros Hl Hk. apply alookup_elem_of in Hk.
  by eapply (proj1 (Forall_forall _ _) Hl).
Qed.
End alist_more.

Section more_queues.
Context {World : Type} `{Collaborators World}.
Implicit Types (s : state World) (c d : combatant) (a : action_dict).

(** X1. [add_combatant] tells whether the combatant is new; afterwards
    the combatant is registered, with the queue it had or an empty one,
    the other queues are as before, and a second call returns [False]
    and changes nothing. *)
Theorem add_combatant_idempotent c s :
  let first := add_combatant c s in
  first.1 = inr (bool_decide (c ∉ akeys (combatants s))) ∧
  registered c first.2 ∧
  alookup c (combatants first.2)
  = Some (default [] (alookup c (combatants s))) ∧
  (∀ d, d ≠ c →
        alookup d (combatants first.2) = alookup d (combatants s)) ∧
  add_combatant c first.2 = (inr false, first.2).
Proof.
  unfold add_combatant, registered. simpl.
  destruct (decide (c ∈ akeys (combatants s))) as [Hin|Hnin].
  - rewrite (bool_decide_eq_true_2 (c ∈ _)) by done. simpl.
    rewrite (bool_decide_eq_true_2 (c ∈ _)) by done.
    rewrite bool_decide_eq_false_2 by (intros Hn; by apply Hn).
    apply alookup_is_Some in Hin as Hq. destruct Hq as [q Hq].
    rewrite Hq. done.
  - rewrite (bool_decide_eq_false_2 (c ∈ _)) by done. simpl.
    rewrite bool_decide_eq_true_2 by done.
    assert (c ∈ akeys (ainsert c [] (combatants s))) as Hin'.
    { rewrite akeys_ainsert_notin by done. apply elem_of_app. right.
      apply list_elem_of_here. }
    rewrite bool_decide_eq_true_2 by done.
    apply alookup_None in Hnin as Hq. rewrite Hq.
    split_and!; try done.
    + by rewrite alookup_ainsert, decide_True.
    + intros d Hd. by rewrite alookup_ainsert, decide_False.
Qed.

(** Every queue holds at most [max_action_queue_size] actions. *)
Definition queues_bounded s : Prop :=
  Forall (fun entry => (length entry.2 ≤ max_action_queue_size s)%nat)
    (combatants s).

Lemma length_deque_append maxlen (q : list action_dict) a :
  (length q ≤ maxlen)%nat → (length (deque_append maxlen q a) ≤ maxlen)%nat.
Proof.
  unfold deque_append. destruct maxlen as [|m]; [done|].
  destruct (Nat.ltb_spec (length q) (S m)) as [Hlt|Hge].
  - rewrite length_app. simpl. lia.
  - destruct q; simpl in *; [lia|]. rewrite length_app. simpl. lia.
Qed.

Lemma length_deque_rotate (q : list action_dict) :
  length (deque_rotate q) = length q.
Proof. destruct q; simpl; [done|]. rewrite length_app. simpl. lia. Qed.

(** The relation between two states of which the second keeps the
    queues within the bound if the first does *)
Definition keeps_bound s s' : Prop :=
  max_action_queue_size s' = max_action_queue_size s ∧
  (queues_bounded s → queues_bounded s').

#[global] Instance keeps_bound_preorder : PreOrder keeps_bound.
Proof.
  split.
  - intros s. by split.
  - intros s1 s2 s3 [Hm12 Hb12] [Hm23 Hb23]. split; [congruence|auto].
Qed.

Lemma keeps_bound_same s s' :
  combatants s' = combatants s →
  max_action_queue_size s' = max_action_queue_size s →
  keeps_bound s s'.
Proof.
  intros Hc Hm. split; [done|]. unfold queues_bounded. by rewrite Hc, Hm.
Qed.

Lemma keeps_bound_remove c s :
  keeps_bound s (set_combatants (aremove c (combatants s)) s).
Proof. split; [done|]. apply Forall_aremove. Qed.

Lemma keeps_bound_set_queue c q s :
  (queues_bounded s → length q ≤ max_action_queue_size s)%nat →
  keeps_bound s (set_combatants (ainsert c q (combatants s)) s).
Proof.
  intros Hq. split; [done|]. intros Hb.
  apply Forall_ainsert; [done|]. simpl. by apply Hq.
Qed.

Lemma bound_queue_action c a : steps keeps_bound (queue_action c a).
Proof.
  intros s. unfold queue_action. unfold_monad.
  destruct (alookup c (combatants s)) as [q|] eqn:Hq; [|reflexivity].
  simpl. etrans.
  - apply (keeps_bound_set_queue c
             (deque_append (max_action_queue_size s) q a)).
    intros Hb. apply length_deque_append.
    apply (Forall_alookup _ _ _ _ Hb Hq).
  - destruct (_ <=? _)%nat; simpl; [|reflexivity].
    by apply keeps_bound_same.
Qed.

Lemma bound_get_next_action_dict c (rotate_queue : bool) :
  steps keeps_bound (get_next_action_dict c rotate_queue).
Proof.
  intros s. unfold get_next_action_dict. unfold_monad.
  destruct (alookup c (combatants s)) as [q|] eqn:Hq; [|reflexivity].
  destruct rotate_queue; simpl; [|reflexivity].
  apply keeps_bound_set_queue. intros Hb. rewrite length_deque_rotate.
  apply (Forall_alookup _ _ _ _ Hb Hq).
Qed.

Lemma bound_add_combatant c : steps keeps_bound (add_combatant c).
Proof.
  intros s. unfold add_combatant.
  destruct (bool_decide _); simpl; [reflexivity|].
  apply keeps_bound_set_queue. simpl. lia.
Qed.

Lemma bound_modify (f : state World → state World) :
  (∀ s, combatants (f s) = combatants s) →
  (∀ s, max_action_queue_size (f s) = max_action_queue_size s) →
  steps keeps_bound (modify f).
Proof. intros Hc Hm. apply steps_modify. intros s. by apply keeps_bound_same. Qed.

Lemma bound_emit e : steps keeps_bound (emit e).
Proof. by apply bound_modify. Qed.

Lemma bound_has_advantage r t : steps keeps_bound (has_advantage r t).
Proof.
  intros s. unfold has_advantage. destruct (matrix_pop _ _ _).
  by apply keeps_bound_same.
Qed.

Lemma bound_has_disadvantage r t : steps keeps_bound (has_disadvantage r t).
Proof.
  intros s. unfold has_disadvantage. destruct (matrix_pop _ _ _).
  by apply keeps_bound_same.
Qed.

Lemma bound_roll c d st dt adv dis :
  steps keeps_bound (roll_opposed_saving_throw c d st dt adv dis).
Proof.
  intros s. unfold roll_opposed_saving_throw.
  destruct (opposed_saving_throw _ _ _ _ _ _ _).
  by apply keeps_bound_same.
Qed.

Ltac bound_steps :=
  repeat first
    [ apply steps_ret; apply _
    | apply steps_gets; apply _
    | apply steps_lookup; apply _
    | apply bound_emit
    | apply bound_has_advantage | apply bound_has_disadvantage
    | apply bound_roll | apply bound_queue_action
    | apply bound_get_next_action_dict
    | apply bound_modify; [done|done]
    | apply steps_when
    | apply steps_bind; [apply _| |intros ?] ];
  try exact _.

Lemma bound_execute c a : steps keeps_bound (execute c a).
Proof.
  destruct a as [|t|r t adv st dt|it [t|]|it|]; simpl;
    unfold CombatActionAttack_execute, CombatActionStunt_execute,
      CombatActionUseItem_execute, CombatActionWield_execute,
      CombatActionFlee_execute, has_advantage_target,
      has_disadvantage_target, give_advantage, give_disadvantage,
      modify_world, msg;
    bound_steps.
  all: repeat case_match; bound_steps.
Qed.

Lemma bound_post_execute c a : steps keeps_bound (post_execute c a).
Proof. destruct a; simpl; bound_steps. Qed.

Lemma bound_execute_next_action c :
  steps keeps_bound (execute_next_action c).
Proof.
  unfold execute_next_action. bound_steps.
  - apply bound_execute.
  - apply bound_post_execute.
Qed.

Lemma bound_remove_combatant c : steps keeps_bound (remove_combatant c).
Proof.
  unfold remove_combatant. bound_steps.
  apply steps_modify. intros s. apply keeps_bound_remove.
Qed.

Lemma bound_stop_combat : steps keeps_bound stop_combat.
Proof.
  unfold stop_combat. bound_steps.
  apply steps_for_each; [apply _|]. intros c _.
  apply bound_remove_combatant.
Qed.

Lemma bound_victory_check pick : steps keeps_bound (victory_check pick).
Proof.
  unfold victory_check.
  apply steps_bind; [apply _|apply steps_gets; apply _|intros s0].
  destruct (match akeys (combatants s0) with
            | [] => _ | _ :: _ => _ end) as [allies [|e enemies]];
    unfold msg; bound_steps.
  apply steps_for_each; [apply _|]. intros c _.
  apply bound_remove_combatant.
Qed.

Lemma bound_execute_full_turn order pick :
  steps keeps_bound (execute_full_turn order pick).
Proof.
  unfold execute_full_turn.
  apply steps_bind; [apply _|by apply bound_modify|intros ?].
  apply steps_bind; [apply _| |intros ?].
  { apply steps_for_each; [apply _|]. intros c _.
    apply bound_execute_next_action. }
  apply steps_bind; [apply _| |intros ?].
  { unfold defeat_sweep.
    apply steps_bind; [apply _|apply steps_gets; apply _|intros ks].
    apply steps_for_each; [apply _|]. intros c _.
    unfold defeat_body, modify_world, msg. bound_steps.
    apply steps_modify. intros s. apply keeps_bound_remove. }
  apply steps_bind; [apply _| |intros ?].
  { unfold flee_sweep.
    apply steps_bind; [apply _|apply steps_gets; apply _|intros timeout].
    apply steps_for_dict; [apply _|]. intros [c st].
    unfold flee_body, msg. bound_steps. apply bound_remove_combatant. }
  apply bound_victory_check.
Qed.

(** X2. No operation lets a queue grow beyond [max_action_queue_size]:
    if all queues are within the bound, they still are after
    [add_combatant], [queue_action], [get_next_action_dict] and after a
    whole turn, however it ends. *)
Theorem queues_stay_bounded c a (rotate_queue : bool) order pick s :
  queues_bounded s →
  queues_bounded (add_combatant c s).2 ∧
  queues_bounded (queue_action c a s).2 ∧
  queues_bounded (get_next_action_dict c rotate_queue s).2 ∧
  queues_bounded (execute_full_turn order pick s).2.
Proof.
  intros Hb. split_and!.
  - by apply (bound_add_combatant c s).
  - by apply (bound_queue_action c a s).
  - by apply (bound_get_next_action_dict c rotate_queue s).
  - by apply (bound_execute_full_turn order pick s).
Qed.

Lemma deque_append_latest maxlen (q : list action_dict) a :
  (length q ≤ maxlen)%nat →
  deque_append maxlen q a = drop (length q + 1 - maxlen) (q ++ [a]).
Proof.
  intros Hlen. unfold deque_append. destruct maxlen as [|m].
  - destruct q; simpl in *; [done|lia].
  - destruct (Nat.ltb_spec (length q) (S m)) as [Hlt|Hge].
    + by replace (length q + 1 - S m)%nat with 0%nat by lia.
    + replace (length q + 1 - S m)%nat with 1%nat by lia.
      destruct q; simpl in *; [lia|done].
Qed.

(** What [queue_action] leaves in the queues *)
Lemma queue_action_latest c a q s :
  alookup c (combatants s) = Some q →
  (length q ≤ max_action_queue_size s)%nat →
  (queue_action c a s).1 = inr tt ∧
  alookup c (combatants (queue_action c a s).2)
  = Some (drop (length q + 1 - max_action_queue_size s) (q ++ [a])) ∧
  ∀ d, d ≠ c →
       alookup d (combatants (queue_action c a s).2)
       = alookup d (combatants s).
Proof.
  intros Hq Hlen.
  destruct (acts_queue_action c a s) as [Hf Hr].
  split_and!.
  - destruct Hr as [[] Hv]; [|done].
    apply alookup_is_Some. by rewrite Hq.
  - rewrite <- deque_append_latest by done.
    unfold queue_action. unfold_monad. rewrite Hq. simpl.
    destruct (_ <=? _)%nat; simpl;
      by rewrite alookup_ainsert, decide_True.
  - intros d Hd. by apply (af_queue _ _ _ Hf).
Qed.

(** X3. [queue_action] on a registered combatant returns normally and
    leaves in its queue the last [max_action_queue_size] entries of the
    old queue followed by the new action-dict; the other queues are not
    touched. *)
Theorem queue_action_keeps_latest c a q s :
  alookup c (combatants s) = Some q →
  (length q ≤ max_action_queue_size s)%nat →
  (queue_action c a s).1 = inr tt ∧
  alookup c (combatants (queue_action c a s).2)
  = Some (drop (length q + 1 - max_action_queue_size s) (q ++ [a])) ∧
  ∀ d, d ≠ c →
       alookup d (combatants (queue_action c a s).2)
       = alookup d (combatants s).
Proof. exact (queue_action_latest c a q s). Qed.

Lemma set_combatants_same s : set_combatants (combatants s) s = s.
Proof. by destruct s. Qed.

Lemma set_combatants_twice v1 v2 s :
  set_combatants v2 (set_combatants v1 s) = set_combatants v2 s.
Proof. done. Qed.

Lemma get_next_action_dict_single c a (rotate_queue : bool) s :
  alookup c (combatants s) = Some [a] →
  get_next_action_dict c rotate_queue s = (inr a, s).
Proof.
  intros Hq. unfold get_next_action_dict. unfold_monad. rewrite Hq.
  destruct rotate_queue; simpl; [|done].
  by rewrite (ainsert_id _ _ _ Hq), set_combatants_same.
Qed.

(** X4. With queues of capacity one, the action-dict queued last is what
    [get_next_action_dict] returns, with or without rotation, and reading
    it changes nothing: it is returned again until something else is
    queued. *)
Theorem last_queued_action_repeats c a (rotate_queue : bool) s :
  registered c s → queues_bounded s → max_action_queue_size s = 1%nat →
  let queued := (queue_action c a s).2 in
  get_next_action_dict c rotate_queue queued = (inr a, queued).
Proof.
  intros Hreg Hb Hmax queued.
  apply alookup_is_Some in Hreg as [q Hq].
  pose proof (Forall_alookup _ _ _ _ Hb Hq) as Hlen. simpl in Hlen.
  destruct (queue_action_latest c a q s Hq Hlen) as (_ & Hq' & _).
  apply get_next_action_dict_single. subst queued. rewrite Hq', Hmax.
  destruct q as [|a0 [|a1 q]]; simpl in *; [done|done|lia].
Qed.

(** [n] calls of [get_next_action_dict c] with rotation: the action-dicts
    returned and the state reached *)
Fixpoint read_actions (n : nat) c s : list action_dict * state World :=
  match n with
  | O => ([], s)
  | S n' =>
      match get_next_action_dict c true s with
      | (inr a, s') =>
          let '(l, s'') := read_actions n' c s' in (a :: l, s'')
      | (inl _, s') => ([], s')
      end
  end.

Lemma read_actions_rotates n c q s :
  alookup c (combatants s) = Some q → (n ≤ length q)%nat →
  read_actions n c s
  = (take n q,
     set_combatants (ainsert c (drop n q ++ take n q) (combatants s)) s).
Proof.
  revert q s. induction n as [|n IH]; intros q s Hq Hn.
  - cbn [read_actions]. rewrite take_0, drop_0, app_nil_r.
    by rewrite (ainsert_id _ _ _ Hq), set_combatants_same.
  - destruct q as [|a q]; simpl in Hn; [lia|].
    cbn [read_actions]. unfold get_next_action_dict. unfold_monad.
    rewrite Hq. cbn [deque_rotate].
    rewrite (IH (q ++ [a])); cycle 1.
    { simpl. by rewrite alookup_ainsert, decide_True. }
    { rewrite length_app. simpl. lia. }
    rewrite take_app_le, drop_app_le by lia. simpl.
    rewrite ainsert_ainsert. by rewrite <- app_assoc.
Qed.

(** X5. The queue is a ring: as many rotating reads as the queue of a
    combatant holds action-dicts return them in queue order and leave the
    handler exactly as it was. *)
Theorem queue_rotation c q s :
  alookup c (combatants s) = Some q →
  read_actions (length q) c s = (q, s).
Proof.
  intros Hq. rewrite (read_actions_rotates _ c q s Hq) by done.
  rewrite firstn_all, drop_all, app_nil_l.
  by rewrite (ainsert_id _ _ _ Hq), set_combatants_same.
Qed.

(** X6. A combatant that has just been added and has queued nothing
    holds: [get_next_action_dict] returns the fallback action-dict, and
    rotating the empty queue changes nothing. *)
Theorem new_combatant_holds c (rotate_queue : bool) s :
  ¬ registered c s →
  let added := (add_combatant c s).2 in
  get_next_action_dict c rotate_queue added = (inr Hold, added).
Proof.
  intros Hreg added.
  assert (alookup c (combatants added) = Some []) as Hq.
  { subst added. unfold add_combatant, registered in *.
    rewrite bool_decide_eq_false_2 by done. simpl.
    by rewrite alookup_ainsert, decide_True. }
  unfold get_next_action_dict. unfold_monad. rewrite Hq.
  destruct rotate_queue; simpl; [|done].
  by rewrite (ainsert_id _ _ _ Hq), set_combatants_same.
Qed.

End more_queues.

(** ** Sides *)

Section filter_more.
Context {A : Type}.

Lemma filter_all (P : A → Prop) `{!∀ x, Decision (P x)} (l : list A) :
  Forall P l → filter P l = l.
Proof.
  induction 1 as [|x l Hx Hl IH]; [done|].
  rewrite filter_cons_True by done. by rewrite IH.
Qed.

Lemma filter_ext_elem (P1 P2 : A → Prop)
    `{!∀ x, Decision (P1 x), !∀ x, Decision (P2 x)} (l : list A) :
  (∀ x, x ∈ l → P1 x ↔ P2 x) → filter P1 l = filter P2 l.
Proof.
  induction l as [|x l IH]; intros Hiff; [done|].
  assert (filter P1 l = filter P2 l) as Hl.
  { apply IH. intros y Hy. apply Hiff. by apply list_elem_of_further. }
  pose proof (Hiff x (list_elem_of_here x l)) as Hx.
  destruct (decide (P1 x)).
  - rewrite !filter_cons_True by tauto. by rewrite Hl.
  - rewrite !filter_cons_False by tauto. done.
Qed.
End filter_more.

Section more_sides.
Context {World : Type} `{Collaborators World}.
Implicit Types (s : state World) (c d : combatant).

Lemma filter_others_cons (c : combatant) (l : list combatant) :
  NoDup l → c ∈ l → c :: filter (fun comb => comb ≠ c) l ≡ₚ l.
Proof.
  induction l as [|x l IH]; intros Hnd Hc.
  - by apply elem_of_nil in Hc.
  - apply NoDup_cons in Hnd as [Hx Hnd].
    destruct (decide (x = c)) as [->|Hne].
    + rewrite filter_cons_False by (intros Hn; by apply Hn).
      apply Permutation_skip.
      rewrite filter_all; [done|].
      apply Forall_forall. intros y Hy ->. done.
    + rewrite filter_cons_True by done.
      apply elem_of_cons in Hc as [->|Hc]; [done|].
      rewrite Permutation_swap. apply Permutation_skip. by apply IH.
Qed.

Lemma npcs_filter (ks : list combatant) :
  filter (fun comb => comb ∉ filter (fun comb' => is_pc comb' = true) ks) ks
  = filter (fun comb => is_pc comb ≠ true) ks.
Proof.
  apply filter_ext_elem. intros x Hx.
  rewrite list_elem_of_filter. tauto.
Qed.

(** The sides, as parts of the registered combatants *)
Lemma sides_partition c s :
  NoDup (akeys (combatants s)) → registered c s →
  let '(allies, enemies) := get_sides c s in
  if allow_pvp s then
    c :: enemies ≡ₚ akeys (combatants s)
  else
    c :: allies ++ enemies ≡ₚ akeys (combatants s) ∧
    (c ∉ allies) ∧
    Forall (fun d => is_pc d = is_pc c) allies ∧
    Forall (fun d => is_pc d ≠ is_pc c) enemies.
Proof.
  unfold registered, get_sides. intros Hnd Hc.
  set (ks := akeys (combatants s)) in *.
  destruct (allow_pvp s).
  { by apply filter_others_cons. }
  rewrite npcs_filter.
  set (pcs := filter (fun comb => is_pc comb = true) ks).
  set (npcs := filter (fun comb => is_pc comb ≠ true) ks).
  assert (pcs ++ npcs ≡ₚ ks) as Hparts by apply filter_app_complement.
  destruct (decide (c ∈ pcs)) as [Hpc|Hnpc].
  - rewrite bool_decide_eq_true_2 by done.
    assert (is_pc c = true) as Hc'
      by (by apply list_elem_of_filter in Hpc as [? _]).
    split_and!.
    + rewrite app_comm_cons, filter_others_cons; [done| |done].
      by apply NoDup_filter.
    + rewrite list_elem_of_filter. intros [Hn _]. by apply Hn.
    + apply Forall_forall. intros d Hd.
      apply list_elem_of_filter in Hd as [_ Hd].
      apply list_elem_of_filter in Hd as [Hd _]. congruence.
    + apply Forall_forall. intros d Hd.
      apply list_elem_of_filter in Hd as [Hd _]. congruence.
  - rewrite bool_decide_eq_false_2 by done.
    assert (is_pc c ≠ true) as Hc'.
    { intros Hpc. apply Hnpc. by apply list_elem_of_filter. }
    assert (c ∈ npcs) as Hin by by apply list_elem_of_filter.
    split_and!.
    + rewrite app_comm_cons, filter_others_cons;
        [|by apply NoDup_filter|done].
      by rewrite (comm (++)).
    + rewrite list_elem_of_filter. intros [Hn _]. by apply Hn.
    + apply Forall_forall. intros d Hd.
      apply list_elem_of_filter in Hd as [_ Hd].
      apply list_elem_of_filter in Hd as [Hd _].
      destruct (is_pc d), (is_pc c); done.
    + apply Forall_forall. intros d Hd.
      apply list_elem_of_filter in Hd as [Hd _].
      destruct (is_pc d), (is_pc c); done.
Qed.

(** X7. Without PvP the sides partition the combat: for a registered
    combatant, itself, its allies and its enemies together are exactly
    the registered combatants; the allies are of its own kind (player
    character or not) and the enemies of the other kind.  With PvP the
    combatant and its enemies are exactly the registered combatants. *)
Theorem get_sides_partition c s :
  NoDup (akeys (combatants s)) → registered c s →
  let '(allies, enemies) := get_sides c s in
  if allow_pvp s then
    c :: enemies ≡ₚ akeys (combatants s)
  else
    c :: allies ++ enemies ≡ₚ akeys (combatants s) ∧
    (c ∉ allies) ∧
    Forall (fun d => is_pc d = is_pc c) allies ∧
    Forall (fun d => is_pc d ≠ is_pc c) enemies.
Proof. exact (sides_partition c s). Qed.

Lemma elem_of_enemies c d s :
  registered c s → registered d s →
  d ∈ (get_sides c s).2 ↔
  if allow_pvp s then d ≠ c else is_pc d ≠ is_pc c.
Proof.
  unfold registered, get_sides. intros Hc Hd.
  set (ks := akeys (combatants s)) in *.
  destruct (allow_pvp s); simpl.
  { rewrite list_elem_of_filter. tauto. }
  rewrite npcs_filter.
  destruct (decide (c ∈ filter (fun comb => is_pc comb = true) ks))
    as [Hpc|Hnpc].
  - rewrite bool_decide_eq_true_2 by done. simpl.
    apply list_elem_of_filter in Hpc as [Hpc _].
    rewrite list_elem_of_filter, Hpc. tauto.
  - rewrite bool_decide_eq_false_2 by done. simpl.
    assert (is_pc c = false) as Hc'.
    { destruct (is_pc c) eqn:E; [|done]. exfalso. apply Hnpc.
      by apply list_elem_of_filter. }
    rewrite list_elem_of_filter, Hc'.
    destruct (is_pc d); split.
    + done.
    + by split.
    + by intros [? _].
    + intros Hn. by destruct Hn.
Qed.

(** X8. Enmity is mutual: of two registered combatants, one is among the
    enemies of the other exactly when the other is among its enemies,
    with or without PvP. *)
Theorem enemies_symmetric c d s :
  registered c s → registered d s →
  d ∈ (get_sides c s).2 ↔ c ∈ (get_sides d s).2.
Proof.
  intros Hc Hd.
  rewrite (elem_of_enemies c d s Hc Hd), (elem_of_enemies d c s Hd Hc).
  destruct (allow_pvp s); split; intros Hn Heq; by apply Hn.
Qed.

End more_sides.

(** ** More on the advantage ledger *)

(** The calls on the ledger methods of [CombatAction] *)
Inductive ledger_call :=
| GiveAdvantage (r t : combatant)
| GiveDisadvantage (r t : combatant)
| HasAdvantage (r t : combatant)
| HasDisadvantage (r t : combatant)
| LoseAdvantage (r t : combatant)
| LoseDisadvantage (r t : combatant).

Section more_ledger.
Context {World : Type} `{Collaborators World}.
Implicit Types (s : state World) (r t : combatant).

(** The state a ledger call leaves *)
Definition ledger_step s (call : ledger_call) : state World :=
  match call with
  | GiveAdvantage r t => (give_advantage r t s).2
  | GiveDisadvantage r t => (give_disadvantage r t s).2
  | HasAdvantage r t => (has_advantage r t s).2
  | HasDisadvantage r t => (has_disadvantage r t s).2
  | LoseAdvantage r t => (lose_advantage r t s).2
  | LoseDisadvantage r t => (lose_disadvantage r t s).2
  end.

Definition ledger_run (calls : list ledger_call) s : state World :=
  foldl ledger_step s calls.

(** A grant of advantage to [r] against [t] is pending. *)
Definition advantage_pending r t s : Prop :=
  default ∅ (advantage_matrix s !! r) !! t = Some true.

Lemma matrix_set_lookup r t b r' t' (m : gmap combatant (gmap combatant bool)) :
  default ∅ (matrix_set r t b m !! r') !! t'
  = if decide (r' = r ∧ t' = t) then Some b
    else default ∅ (m !! r') !! t'.
Proof.
  unfold matrix_set. destruct (decide (r' = r)) as [->|Hr].
  - rewrite lookup_insert_eq. simpl.
    destruct (decide (t' = t)) as [->|Ht].
    + rewrite lookup_insert_eq. by rewrite decide_True.
    + rewrite lookup_insert_ne by done.
      rewrite decide_False by (by intros [_ ?]). done.
  - rewrite lookup_insert_ne by done.
    rewrite decide_False by (by intros [? _]). done.
Qed.

Lemma matrix_pop_lookup r t r' t' (m : gmap combatant (gmap combatant bool)) :
  default ∅ ((matrix_pop r t m).2 !! r') !! t'
  = if decide (r' = r ∧ t' = t) then None
    else default ∅ (m !! r') !! t'.
Proof.
  unfold matrix_pop. simpl. destruct (decide (r' = r)) as [->|Hr].
  - rewrite lookup_insert_eq. simpl.
    destruct (decide (t' = t)) as [->|Ht].
    + rewrite lookup_delete_eq. by rewrite decide_True.
    + rewrite lookup_delete_ne by done.
      rewrite decide_False by (by intros [_ ?]). done.
  - rewrite lookup_insert_ne by done.
    rewrite decide_False by (by intros [? _]). done.
Qed.

Lemma has_advantage_matrix r t s :
  advantage_matrix (has_advantage r t s).2
  = (matrix_pop r t (advantage_matrix s)).2.
Proof. unfold has_advantage. by destruct (matrix_pop _ _ _). Qed.

Lemma has_disadvantage_matrix r t s :
  advantage_matrix (has_disadvantage r t s).2 = advantage_matrix s.
Proof. unfold has_disadvantage. by destruct (matrix_pop _ _ _). Qed.

Lemma ledger_step_pending r t call s :
  call ≠ HasAdvantage r t → call ≠ LoseAdvantage r t →
  advantage_pending r t s → advantage_pending r t (ledger_step s call).
Proof.
  unfold advantage_pending. intros Hhas Hlose Hp.
  destruct call as [r' t'|r' t'|r' t'|r' t'|r' t'|r' t'];
    cbn [ledger_step].
  - simpl. rewrite matrix_set_lookup. by destruct (decide _).
  - done.
  - rewrite has_advantage_matrix, matrix_pop_lookup.
    rewrite decide_False; [done|]. intros [-> ->]. done.
  - by rewrite has_disadvantage_matrix.
  - simpl. rewrite matrix_set_lookup.
    rewrite decide_False; [done|]. intros [-> ->]. done.
  - done.
Qed.

Lemma has_advantage_pending r t s :
  advantage_pending r t s → (has_advantage r t s).1 = inr true.
Proof.
  unfold advantage_pending, has_advantage, matrix_pop. simpl.
  by intros ->.
Qed.

(** X9. A grant waits for its reader: after [give_advantage r t], whatever
    other ledger calls follow (grants, reads and revocations for other
    pairs, anything on the disadvantage matrix, further grants to the
    same pair), the next [has_advantage r t] returns true, fleeing or
    not. *)
Theorem advantage_waits r t (calls : list ledger_call) s :
  HasAdvantage r t ∉ calls → LoseAdvantage r t ∉ calls →
  (has_advantage r t (ledger_run calls (give_advantage r t s).2)).1
  = inr true.
Proof.
  intros Hhas Hlose. apply has_advantage_pending.
  assert (advantage_pending r t (give_advantage r t s).2) as Hp.
  { unfold advantage_pending. simpl. rewrite matrix_set_lookup.
    by rewrite decide_True. }
  revert Hp. generalize (give_advantage r t s).2. clear s.
  induction calls as [|call calls IH]; intros s Hp; [done|].
  apply not_elem_of_cons in Hhas as [Hh Hhas].
  apply not_elem_of_cons in Hlose as [Hl Hlose].
  simpl. apply IH; [done..|].
  apply ledger_step_pending; done.
Qed.

(** X10. Grants do not stack and can be revoked: with the target not
    fleeing, two grants of advantage are used up by one read, and a grant
    revoked by [lose_advantage] is not seen by the next read; the same
    holds for disadvantage, with the recipient not fleeing. *)
Theorem grants_do_not_stack r t s :
  (t ∉ akeys (fleeing_combatants s) →
   let twice := (give_advantage r t (give_advantage r t s).2).2 in
   (has_advantage r t twice).1 = inr true ∧
   (has_advantage r t (has_advantage r t twice).2).1 = inr false ∧
   (has_advantage r t
      (lose_advantage r t (give_advantage r t s).2).2).1 = inr false) ∧
  (r ∉ akeys (fleeing_combatants s) →
   let twice := (give_disadvantage r t (give_disadvantage r t s).2).2 in
   (has_disadvantage r t twice).1 = inr true ∧
   (has_disadvantage r t (has_disadvantage r t twice).2).1 = inr false ∧
   (has_disadvantage r t
      (lose_disadvantage r t (give_disadvantage r t s).2).2).1
   = inr false).
Proof.
  split; intros Hf; simpl;
    unfold has_advantage, has_disadvantage, matrix_pop, matrix_set; simpl;
    rewrite !lookup_insert_eq; simpl; rewrite !lookup_insert_eq; simpl;
    rewrite ?lookup_delete_eq; simpl;
    rewrite bool_decide_eq_false_2 by done; done.
Qed.

End more_ledger.

(** ** What a move leaves in the queue and in the ledger *)

Section more_moves.
Context {World : Type} `{Collaborators World}.
Implicit Types (s : state World) (c r t : combatant) (a : action_dict).

(** What [has_advantage] and [has_disadvantage] would return *)
Definition advantage_flag r t s : bool :=
  default false (default ∅ (advantage_matrix s !! r) !! t)
  || bool_decide (t ∈ akeys (fleeing_combatants s)).

Definition disadvantage_flag r t s : bool :=
  default false (default ∅ (disadvantage_matrix s !! r) !! t)
  || bool_decide (r ∈ akeys (fleeing_combatants s)).

(** The verdict of the dice on a stunt of [c] in state [s] *)
Definition stunt_succeeds c r t (advantage : bool) (stunt_type
    defense_type : ability) s : bool :=
  let defender := stunt_defender r t advantage in
  (opposed_saving_throw (world s) c defender stunt_type defense_type
     (advantage_flag c defender s) (disadvantage_flag c defender s)).1.

(** The actions after which the actor goes back to holding *)
Definition reverts_to_hold c a s : bool :=
  match a with
  | UseItem _ _ | Wield _ => true
  | Stunt r t advantage stunt_type defense_type =>
      stunt_succeeds c r t advantage stunt_type defense_type s
  | Hold | Attack _ | Flee => false
  end.

Lemma queue_action_single c a0 a s :
  max_action_queue_size s = 1%nat →
  alookup c (combatants s) = Some [a0] →
  (queue_action c a s).1 = inr tt ∧
  alookup c (combatants (queue_action c a s).2) = Some [a].
Proof.
  intros Hmax Hq.
  destruct (queue_action_latest c a [a0] s Hq) as (Hr & Hq' & _).
  { rewrite Hmax. simpl. lia. }
  split; [done|]. by rewrite Hq', Hmax.
Qed.

Lemma execute_queue c a s :
  max_action_queue_size s = 1%nat →
  alookup c (combatants s) = Some [a] →
  (execute c a s).1 = inr tt ∧
  alookup c (combatants (execute c a s).2)
  = Some [if reverts_to_hold c a s then Hold else a].
Proof.
  intros Hmax Hq.
  assert (registered c s) as Hreg by (apply alookup_is_Some; by rewrite Hq).
  split.
  { destruct (acts_execute c a s) as [_ Hr].
    by destruct (Hr Hreg) as [[] ?]. }
  destruct a as [|t|r t adv st dt|it tgt|it|]; cbn [execute reverts_to_hold].
  - done.
  - unfold CombatActionAttack_execute, has_advantage, matrix_pop.
    unfold_monad. simpl. by destruct (weapon_at_pre_use _ _ _).
  - unfold stunt_succeeds, advantage_flag, disadvantage_flag.
    unfold CombatActionStunt_execute, has_advantage, has_disadvantage,
      matrix_pop, roll_opposed_saving_throw.
    unfold_monad. simpl.
    destruct (opposed_saving_throw _ _ _ _ _ _ _) as [ok w]. simpl.
    destruct ok; [|done].
    destruct adv, (decide (r = c)); simpl;
      match goal with |- context [queue_action c Hold ?s1] =>
        by apply (queue_action_single c _ Hold s1 Hmax Hq)
      end.
  - unfold CombatActionUseItem_execute. unfold_monad.
    destruct (item_at_pre_use _ _ _ _); [destruct tgt|]; simpl;
      unfold has_advantage, has_disadvantage, matrix_pop; simpl;
      match goal with |- context [queue_action c Hold ?s1] =>
        by apply (queue_action_single c _ Hold s1 Hmax Hq)
      end.
  - unfold CombatActionWield_execute. unfold_monad.
    by apply (queue_action_single c (Wield it) Hold).
  - by destruct (flee_execute_state c s) as [-> _].
Qed.

(** X11. With queues of capacity one, a move either repeats or reverts
    to holding: after [execute_next_action] of a combatant whose queue
    holds one action-dict, the queue holds [hold] if that was a use, a
    wield or a stunt that succeeded, and the same action-dict again if it
    was a hold, an attack, a flee or a stunt that failed. *)
Theorem move_repeats_or_holds c a s :
  max_action_queue_size s = 1%nat →
  alookup c (combatants s) = Some [a] →
  (execute_next_action c s).1 = inr tt ∧
  alookup c (combatants (execute_next_action c s).2)
  = Some [if reverts_to_hold c a s then Hold else a].
Proof.
  intros Hmax Hq. unfold execute_next_action.
  rewrite (bind_eq _ _ _ _ _ (get_next_action_dict_single c a true s Hq)).
  rewrite (bind_eq _ _ s tt (set_trace (trace s ++ [EvExecute c a]) s))
    by done.
  set (s1 := set_trace (trace s ++ [EvExecute c a]) s).
  destruct (execute_queue c a s1 Hmax Hq) as [Hr1 Hq1].
  assert (reverts_to_hold c a s1 = reverts_to_hold c a s) as Hrev
    by by destruct a.
  rewrite Hrev in Hq1.
  destruct (execute c a s1) as [[e|[]] s2] eqn:Hex; [done|].
  rewrite (bind_eq _ _ _ _ _ Hex). simpl in Hq1.
  destruct (acts_post_execute c a s2) as [Hf Hr].
  split.
  - destruct Hr as [[] ?]; [|done].
    apply alookup_is_Some. by rewrite Hq1.
  - by destruct a.
Qed.

Lemma queue_action_ledger c a s :
  advantage_matrix (queue_action c a s).2 = advantage_matrix s ∧
  disadvantage_matrix (queue_action c a s).2 = disadvantage_matrix s.
Proof.
  unfold queue_action. unfold_monad.
  destruct (alookup c (combatants s)); simpl; [|done].
  by destruct (_ <=? _)%nat.
Qed.

(** X12. A stunt that succeeds leaves the relation it was asked for: the
    next [has_advantage recipient target] (for a stunt giving advantage)
    or [has_disadvantage recipient target] (otherwise) returns true.  A
    stunt that fails changes no queue, and in the two matrices it only
    uses up the entry of the attacker against the defender that the check
    has read. *)
Theorem stunt_outcome c r t (advantage : bool) (stunt_type defense_type :
    ability) s :
  let done := (execute c (Stunt r t advantage stunt_type defense_type) s).2 in
  let defender := stunt_defender r t advantage in
  if stunt_succeeds c r t advantage stunt_type defense_type s then
    if advantage then (has_advantage r t done).1 = inr true
    else (has_disadvantage r t done).1 = inr true
  else
    combatants done = combatants s ∧
    advantage_matrix done
    = (matrix_pop c defender (advantage_matrix s)).2 ∧
    disadvantage_matrix done
    = (matrix_pop c defender (disadvantage_matrix s)).2.
Proof.
  cbn [execute]. unfold stunt_succeeds, advantage_flag, disadvantage_flag.
  unfold CombatActionStunt_execute, has_advantage, has_disadvantage,
    matrix_pop, roll_opposed_saving_throw.
  unfold_monad. simpl.
  destruct (opposed_saving_throw _ _ _ _ _ _ _) as [ok w].
  simpl. destruct ok; [|done].
  destruct advantage, (decide (r = c)); simpl;
    match goal with |- context [queue_action c Hold ?s1] =>
      destruct (queue_action_ledger c Hold s1) as [Ha Hd];
      destruct (queue_action_flight c Hold s1) as [Hfl _]
    end;
    rewrite ?Ha, ?Hd; simpl; unfold matrix_set;
    rewrite lookup_insert_eq; simpl; by rewrite lookup_insert_eq.
Qed.

End more_moves.

(** ** What a turn never does *)

Section more_turns.
Context {World : Type} `{Collaborators World}.
Implicit Types (s : state World) (c d : combatant).

(** Within a turn, after the counter has been incremented: the counter
    and the timeout stay, nobody is registered, the defeated list is only
    extended. *)
Record turn_rest s s' : Prop := {
  tr_turn : turn s' = turn s;
  tr_timeout : flee_timeout s' = flee_timeout s;
  tr_keys c : c ∈ akeys (combatants s') → c ∈ akeys (combatants s);
  tr_defeated : defeated_combatants s `prefix_of` defeated_combatants s'
}.

#[global] Instance turn_rest_preorder : PreOrder turn_rest.
Proof.
  split.
  - intros s. by split.
  - intros s1 s2 s3 H12 H23. split.
    + rewrite (tr_turn _ _ H23). apply (tr_turn _ _ H12).
    + rewrite (tr_timeout _ _ H23). apply (tr_timeout _ _ H12).
    + intros c Hc. by apply (tr_keys _ _ H12), (tr_keys _ _ H23).
    + etrans; [apply (tr_defeated _ _ H12)|apply (tr_defeated _ _ H23)].
Qed.

Lemma turn_rest_act actor s s' : act_frame actor s s' → turn_rest s s'.
Proof.
  intros Hf. split.
  - apply (af_turn _ _ _ Hf).
  - apply (af_timeout _ _ _ Hf).
  - intros c. by rewrite (af_keys _ _ _ Hf).
  - by rewrite (af_defeated _ _ _ Hf).
Qed.

Lemma rest_acts {A} actor (m : M World A) : acts actor m → steps turn_rest m.
Proof. intros Hm s. apply (turn_rest_act actor), Hm. Qed.

Lemma rest_emit e : steps turn_rest (emit e).
Proof. apply steps_modify. intros s. by split. Qed.

Lemma rest_remove c :
  steps turn_rest
    (modify (fun s => set_combatants (aremove c (combatants s)) s)).
Proof.
  apply steps_modify. intros s. split; simpl; try done.
  intros d Hd. by apply elem_of_akeys_aremove in Hd as [_ ?].
Qed.

Lemma rest_remove_combatant c : steps turn_rest (remove_combatant c).
Proof.
  unfold remove_combatant.
  apply steps_bind; [apply _|apply rest_remove|intros ?]. apply rest_emit.
Qed.

Lemma rest_execute_next_action c : steps turn_rest (execute_next_action c).
Proof.
  unfold execute_next_action.
  apply steps_bind; [apply _| |intros a].
  { apply (rest_acts c), acts_get_next_action_dict. }
  apply steps_bind; [apply _|apply rest_emit|intros ?].
  apply steps_bind; [apply _| |intros ?].
  - apply (rest_acts c), acts_execute.
  - apply (rest_acts c), acts_post_execute.
Qed.

Lemma rest_defeat_body c : steps turn_rest (defeat_body c).
Proof.
  unfold defeat_body, modify_world, msg.
  apply steps_bind; [apply _|apply steps_gets; apply _|intros health].
  apply steps_when; [apply _|].
  apply steps_bind; [apply _| |intros ?].
  { apply steps_modify. intros s. by split. }
  apply steps_bind; [apply _|apply steps_lookup; apply _|intros ?].
  apply steps_bind; [apply _|apply rest_remove|intros ?].
  apply steps_bind; [apply _| |intros ?]; [|apply rest_emit].
  apply steps_modify. intros s. split; simpl; try done.
  by apply prefix_app_r.
Qed.

Lemma rest_stop_combat : steps turn_rest stop_combat.
Proof.
  unfold stop_combat. apply steps_bind; [apply _| |intros ks].
  { apply steps_gets. apply _. }
  apply steps_bind; [apply _| |intros ?].
  { apply steps_for_each; [apply _|]. intros c _.
    apply rest_remove_combatant. }
  apply steps_bind; [apply _| |intros ?]; apply rest_emit.
Qed.

Lemma rest_victory_check pick : steps turn_rest (victory_check pick).
Proof.
  unfold victory_check.
  apply steps_bind; [apply _|apply steps_gets; apply _|intros s0].
  destruct (match akeys (combatants s0) with
            | [] => _ | _ :: _ => _ end) as [allies [|e enemies]].
  - apply steps_bind; [apply _|apply rest_emit|intros ?].
    apply rest_stop_combat.
  - apply steps_ret. apply _.
Qed.

(** X13. A turn only removes: however [execute_full_turn] ends, and
    whatever order it is given, the turn counter has gone up by exactly
    one, the flee timeout is unchanged, nobody has been registered who
    was not, and the defeated list is the old one, possibly extended. *)
Theorem turn_only_removes order pick s :
  let ended := (execute_full_turn order pick s).2 in
  turn ended = (turn s + 1)%Z ∧
  flee_timeout ended = flee_timeout s ∧
  (∀ c, registered c ended → registered c s) ∧
  defeated_combatants s `prefix_of` defeated_combatants ended.
Proof.
  assert (steps turn_rest
            (action_phase order ;; defeat_sweep ;; flee_sweep ;;
             victory_check pick)) as Hrest.
  { apply steps_bind; [apply _| |intros ?].
    { apply steps_for_each; [apply _|]. intros c _.
      apply rest_execute_next_action. }
    apply steps_bind; [apply _| |intros ?].
    { unfold defeat_sweep.
      apply steps_bind; [apply _|apply steps_gets; apply _|intros ks].
      apply steps_for_each; [apply _|]. intros c _. apply rest_defeat_body. }
    apply steps_bind; [apply _| |intros ?]; [|apply rest_victory_check].
    unfold flee_sweep.
    apply steps_bind; [apply _|apply steps_gets; apply _|intros timeout].
    apply steps_for_dict; [apply _|]. intros [c st]. unfold flee_body, msg.
    apply steps_bind; [apply _|apply steps_gets; apply _|intros now].
    apply steps_when; [apply _|].
    apply steps_bind; [apply _|apply rest_emit|intros ?].
    apply rest_remove_combatant. }
  specialize (Hrest (set_turn (turn s + 1) s)).
  unfold execute_full_turn.
  rewrite (bind_eq _ _ s tt (set_turn (turn s + 1) s)) by done.
  destruct Hrest as [Ht Hto Hk Hd]. simpl in *.
  split_and!; try done.
Qed.

(** *** The defeat sweep *)

Lemma defeat_body_cases c s :
  registered c s →
  defeat_body c s = (inr tt, s) ∨
  ∃ s', defeat_body c s = (inr tt, s') ∧
        combatants s' = aremove c (combatants s) ∧
        defeated_combatants s' = defeated_combatants s ++ [c].
Proof.
  unfold registered. intros Hreg.
  apply alookup_is_Some in Hreg as [q Hq].
  unfold defeat_body. unfold_monad. simpl.
  destruct (hp (world s) c <=? 0)%Z; simpl; [|by left].
  rewrite Hq. simpl. right. by eexists.
Qed.

Lemma defeat_loop_conserves ks s :
  NoDup ks → NoDup (akeys (combatants s)) →
  Forall (fun c => registered c s) ks →
  ∃ s' fallen,
    for_each ks defeat_body s = (inr tt, s') ∧
    defeated_combatants s' = defeated_combatants s ++ fallen ∧
    akeys (combatants s) ≡ₚ akeys (combatants s') ++ fallen ∧
    (∀ d, d ∉ ks → d ∈ akeys (combatants s) → d ∈ akeys (combatants s')).
Proof.
  revert s. induction ks as [|c ks IH]; intros s Hndk Hnd Hreg.
  - exists s, []. by rewrite !app_nil_r.
  - apply NoDup_cons in Hndk as [Hc Hndk].
    apply Forall_cons in Hreg as [Hcreg Hreg].
    destruct (defeat_body_cases c s Hcreg)
      as [Hrun1|(s1 & Hrun1 & Hk1 & Hd1)].
    + destruct (IH s Hndk Hnd Hreg) as (s' & fallen & Hrun & Hd & Hp & Hkeep).
      exists s', fallen. split_and!; try done.
      * simpl. by rewrite (bind_eq _ _ _ _ _ Hrun1).
      * intros d Hd'. apply not_elem_of_cons in Hd' as [_ Hd']. auto.
    + assert (NoDup (akeys (combatants s1))) as Hnd1.
      { rewrite Hk1. by apply NoDup_akeys_aremove. }
      assert (Forall (fun c' => registered c' s1) ks) as Hreg1.
      { apply Forall_forall. intros d Hd'. unfold registered.
        rewrite Hk1. apply elem_of_akeys_aremove. split.
        - intros ->. done.
        - by apply (proj1 (Forall_forall _ _) Hreg). }
      destruct (IH s1 Hndk Hnd1 Hreg1)
        as (s' & fallen & Hrun & Hd & Hp & Hkeep).
      exists s', (c :: fallen). split_and!.
      * simpl. by rewrite (bind_eq _ _ _ _ _ Hrun1).
      * rewrite Hd, Hd1. by rewrite <- app_assoc.
      * rewrite <- Permutation_middle, <- Hp, Hk1, akeys_aremove.
        symmetry. by apply filter_others_cons.
      * intros d Hd' Hin. apply not_elem_of_cons in Hd' as [Hne Hd'].
        apply Hkeep; [done|]. rewrite Hk1.
        by apply elem_of_akeys_aremove.
Qed.

(** X14. The defeat sweep accounts for everybody: with one entry per
    combatant, it returns normally, the combatants it has removed are
    exactly those it has appended to the defeated list, and nobody else
    has left. *)
Theorem defeat_sweep_conserves s :
  NoDup (akeys (combatants s)) →
  (defeat_sweep s).1 = inr tt ∧
  ∃ fallen,
    defeated_combatants (defeat_sweep s).2
    = defeated_combatants s ++ fallen ∧
    akeys (combatants s) ≡ₚ akeys (combatants (defeat_sweep s).2) ++ fallen.
Proof.
  intros Hnd.
  destruct (defeat_loop_conserves (akeys (combatants s)) s Hnd Hnd)
    as (s' & fallen & Hrun & Hd & Hp & _).
  { by apply Forall_forall. }
  unfold defeat_sweep.
  rewrite (bind_eq _ _ s (akeys (combatants s)) s) by done.
  rewrite Hrun. split; [done|]. by exists fallen.
Qed.

(** *** The end of a combat nobody is left in *)



End more_turns.

(** ** The combat summary *)

From stdpp Require Import strings.

(** A cell of the table of [get_combat_summary]: the line of a combatant
    with the key of its next action, an empty filler, or the "vs" mark *)
Inductive cell :=
| CellCombatant (who : combatant) (key : string)
| CellEmpty
| CellVersus.

(** [action_dict["key"]] *)
Definition action_key (a : action_dict) : string :=
  match a with
  | Hold => "hold"
  | Attack _ => "attack"
  | Stunt _ _ _ _ _ => "stunt"
  | UseItem _ _ => "use"
  | Wield _ => "wield"
  | Flee => "flee"
  end.

Section summary.
Context {World : Type} `{Collaborators World}.
Implicit Types (s : state World) (c d : combatant).

(** The list comprehensions of [get_combat_summary]: one line per
    combatant, each made with [get_next_action_dict(comb)], which rotates
    the queue of [comb] *)
Fixpoint summary_cells (l : list combatant) : M World (list cell) :=
  match l with
  | [] => mret []
  | comb :: l' =>
      a ← get_next_action_dict comb true ;
      rest ← summary_cells l' ;
      mret (CellCombatant comb (action_key a) :: rest)
  end.

(** [get_combat_summary]: the three columns handed to [EvTable] *)
Definition get_combat_summary (c : combatant)
    : M World (list cell * list cell * list cell) :=
  sides ← gets (get_sides c) ;
  (* we must include ourselves at the top of the list *)
  let allies := c :: sides.1 in
  let enemies := sides.2 in
  let nallies := length allies in
  let nenemies := length enemies in
  allies ← summary_cells allies ;
  enemies ← summary_cells enemies ;
  let vs_column :=
    <[(nallies `max` nenemies) `div` 2 := CellVersus]>
      (replicate (nallies `max` nenemies) CellEmpty) in
  let diff := ((nallies `max` nenemies) - (nallies `min` nenemies))%nat in
  let top_empty := (diff `div` 2)%nat in
  let bot_empty := (diff - top_empty)%nat in
  let topfill := replicate top_empty CellEmpty in
  let botfill := replicate bot_empty CellEmpty in
  if (nenemies <=? nallies)%nat
  then mret (allies, vs_column, topfill ++ enemies ++ botfill)
  else mret (topfill ++ allies ++ botfill, vs_column, enemies).

Lemma half_le (n : nat) : (n `div` 2 ≤ n)%nat.
Proof. apply Nat.Div0.div_le_upper_bound. lia. Qed.

Lemma get_next_action_dict_rotates d s :
  registered d s →
  ∃ a s',
    get_next_action_dict d true s = (inr a, s') ∧
    akeys (combatants s') = akeys (combatants s) ∧
    alookup d (combatants s') = deque_rotate <$> alookup d (combatants s) ∧
    ∀ c, c ≠ d → alookup c (combatants s') = alookup c (combatants s).
Proof.
  intros Hreg.
  destruct (get_next_action_dict_eq d s Hreg) as (q & Hq & ->).
  eexists _, _. split; [done|]. simpl. split_and!.
  - by apply akeys_ainsert_elem.
  - rewrite alookup_ainsert, decide_True by done. by rewrite Hq.
  - intros c Hc. by rewrite alookup_ainsert, decide_False.
Qed.

Lemma summary_cells_rotates l s :
  NoDup l → Forall (fun d => registered d s) l →
  ∃ cells s',
    summary_cells l s = (inr cells, s') ∧
    length cells = length l ∧
    akeys (combatants s') = akeys (combatants s) ∧
    (∀ d, d ∈ l →
          alookup d (combatants s')
          = deque_rotate <$> alookup d (combatants s)) ∧
    (∀ d, d ∉ l → alookup d (combatants s') = alookup d (combatants s)).
Proof.
  revert s. induction l as [|c l IH]; intros s Hnd Hreg.
  - exists [], s. split_and!; try done.
    intros d Hd. by apply elem_of_nil in Hd.
  - apply NoDup_cons in Hnd as [Hc Hnd].
    apply Forall_cons in Hreg as [Hcreg Hreg].
    destruct (get_next_action_dict_rotates c s Hcreg)
      as (a & s1 & Hrun1 & Hk1 & Hq1 & Ho1).
    assert (Forall (fun d => registered d s1) l) as Hreg1.
    { eapply Forall_impl; [exact Hreg|]. unfold registered.
      intros d. by rewrite Hk1. }
    destruct (IH s1 Hnd Hreg1) as (cells & s' & Hrun & Hlen & Hk & Hin & Hout).
    eexists _, s'. split_and!.
    + cbn [summary_cells]. rewrite (bind_eq _ _ _ _ _ Hrun1).
      by rewrite (bind_eq _ _ _ _ _ Hrun).
    + simpl. by rewrite Hlen.
    + by rewrite Hk.
    + intros d Hd. apply elem_of_cons in Hd as [->|Hd].
      * by rewrite (Hout c Hc).
      * rewrite (Hin d Hd), Ho1; [done|]. intros ->. done.
    + intros d Hd. apply not_elem_of_cons in Hd as [Hne Hd].
      by rewrite (Hout d Hd), Ho1.
Qed.

(** X16. The combat summary of a registered combatant, without PvP:
    [get_combat_summary] returns normally; its three columns have the
    same number of rows, with the "vs" mark in the middle row; and, its
    lines being made with the rotating [get_next_action_dict], it has
    rotated the queue of every registered combatant by one (which shows
    only in queues of more than one action-dict).  For a combatant that
    is not registered it raises the lookup error and changes nothing. *)
Theorem combat_summary_layout c s :
  (NoDup (akeys (combatants s)) → registered c s → allow_pvp s = false →
   ∃ allies vs enemies s',
     get_combat_summary c s = (inr (allies, vs, enemies), s') ∧
     length allies = length vs ∧ length enemies = length vs ∧
     vs !! (length vs `div` 2)%nat = Some CellVersus ∧
     ∀ d, alookup d (combatants s')
          = deque_rotate <$> alookup d (combatants s)) ∧
  (¬ registered c s → get_combat_summary c s = (inl (KeyError c), s)).
Proof.
  split.
  - intros Hnd Hreg Hpvp.
    pose proof (sides_partition c s Hnd Hreg) as Hparts.
    destruct (get_sides c s) as [al en] eqn:Hsides. rewrite Hpvp in Hparts.
    destruct Hparts as (Hperm & Hcal & _ & _).
    assert (NoDup (c :: al ++ en)) as Hnd' by by rewrite Hperm.
    rewrite app_comm_cons in Hnd'.
    apply NoDup_app in Hnd' as (Hnd1 & Hdisj & Hnd2).
    assert (∀ d, d ∈ c :: al ++ en → registered d s) as Hregs.
    { intros d Hd. unfold registered. by rewrite <- Hperm. }
    destruct (summary_cells_rotates (c :: al) s Hnd1)
      as (cells1 & s1 & Hrun1 & Hlen1 & Hk1 & Hin1 & Hout1).
    { apply Forall_forall. intros d Hd. apply Hregs.
      rewrite app_comm_cons. apply elem_of_app. by left. }
    destruct (summary_cells_rotates en s1 Hnd2)
      as (cells2 & s2 & Hrun2 & Hlen2 & Hk2 & Hin2 & Hout2).
    { apply Forall_forall. intros d Hd. unfold registered. rewrite Hk1.
      apply Hregs. rewrite app_comm_cons. apply elem_of_app. by right. }
    unfold get_combat_summary.
    rewrite (bind_eq _ _ s (al, en) s) by (unfold gets; by rewrite Hsides).
    cbn [fst snd].
    rewrite (bind_eq _ _ _ _ _ Hrun1), (bind_eq _ _ _ _ _ Hrun2).
    set (na := length (c :: al)) in *. set (ne := length en) in *.
    assert (0 < na)%nat as Hna by (subst na; simpl; lia).
    assert (∀ d, alookup d (combatants s2)
                 = deque_rotate <$> alookup d (combatants s)) as Hrot.
    { intros d. destruct (decide (d ∈ c :: al)) as [Hd1|Hd1].
      - rewrite Hout2, (Hin1 d Hd1); [done|]. intros Hd2.
        by apply (Hdisj d).
      - destruct (decide (d ∈ en)) as [Hd2|Hd2].
        + by rewrite (Hin2 d Hd2), (Hout1 d Hd1).
        + rewrite (Hout2 d Hd2), (Hout1 d Hd1).
          destruct (alookup d (combatants s)) as [q|] eqn:Hq; [|done].
          exfalso. assert (d ∈ c :: al ++ en) as Hd.
          { rewrite Hperm. apply alookup_is_Some. by rewrite Hq. }
          rewrite app_comm_cons in Hd.
          apply elem_of_app in Hd as [?|?]; done. }
    assert (length
              (<[(na `max` ne) `div` 2 := CellVersus]>
                 (replicate (na `max` ne) CellEmpty))
            = (na `max` ne)%nat) as Hvs
      by by rewrite length_insert, length_replicate.
    assert ((na `max` ne) `div` 2 < na `max` ne)%nat as Hmid
      by (apply Nat.div_lt; lia).
    destruct (Nat.leb_spec ne na) as [Hle|Hlt].
    + eexists _, _, _, s2. split; [done|]. rewrite Hvs. split_and!.
      * rewrite Hlen1. lia.
      * rewrite !length_app, !length_replicate, Hlen2.
        pose proof (half_le ((na `max` ne) - (na `min` ne))). lia.
      * apply list_lookup_insert_eq. by rewrite length_replicate.
      * done.
    + eexists _, _, _, s2. split; [done|]. rewrite Hvs. split_and!.
      * rewrite !length_app, !length_replicate, Hlen1.
        pose proof (half_le ((na `max` ne) - (na `min` ne))). lia.
      * rewrite Hlen2. lia.
      * apply list_lookup_insert_eq. by rewrite length_replicate.
      * done.
  - intros Hreg. apply alookup_None in Hreg.
    unfold get_combat_summary.
    rewrite (bind_eq _ _ s (get_sides c s) s) by done.
    cbn [summary_cells]. unfold get_next_action_dict. unfold_monad.
    by rewrite Hreg.
Qed.

End summary.

(** ** The menu wizard *)

(** What [_step_wizard] returns: a node name, a step of the wizard with
    the [istep] it has stored in the kwargs, or the result of
    [_queue_action]; or the [IndexError] of [steps[istep]] *)
Inductive wizard_goto :=
| GotoNode (name : string)
| GotoStep (name : string) (istep : nat)
| GotoQueueAction
| RaisesIndexError.

(** [_step_wizard], as a function of the kwargs it reads: ["steps"],
    ["istep"] (never negative: only [_step_wizard] stores it) and
    ["step"] *)
Definition step_wizard (steps : option (list string)) (istep : option nat)
    (step : option string) : wizard_goto :=
  let steps := default [] steps in
  let nsteps := length steps in
  let istep := default 0%nat istep in
  let step_direction := default "forward" step in
  if String.eqb step_direction "abort" then GotoNode "node_combat"
  else if String.eqb step_direction "back" then
    let istep := (0 `max` (istep - 1))%nat in
    match steps !! istep with
    | Some name => GotoStep name istep
    | None => RaisesIndexError
    end
  else if (nsteps <=? istep + 1)%nat then GotoQueueAction
  else
    let istep := ((nsteps - 1) `min` (istep + 1))%nat in
    match steps !! istep with
    | Some name => GotoStep name istep
    | None => RaisesIndexError
    end.

(** X17. The wizard stays within its steps.  From a step of the list,
    going back leads to the step before (from the first step, to the
    first step); going forward leads to the step after, from which going
    back returns to where one was, or, from the last step, to queueing
    the action.  Called with steps and no [istep], as the top-level menu
    calls it, it goes forward to the second step, or queues the action
    at once when there is none: the way forward never leads to the first
    step.  Called without steps, as the options of the choice nodes call
    it, it queues the action at once on the way forward and raises
    [IndexError] on the way back. *)
Theorem wizard_stays_in_range (steps : list string) (istep : nat) :
  ((istep < length steps)%nat →
   (∃ name,
      steps !! (istep - 1)%nat = Some name ∧
      step_wizard (Some steps) (Some istep) (Some "back")
      = GotoStep name (istep - 1)) ∧
   (if decide (istep + 1 < length steps)%nat then
      ∃ here next,
        steps !! istep = Some here ∧ steps !! (istep + 1)%nat = Some next ∧
        step_wizard (Some steps) (Some istep) None
        = GotoStep next (istep + 1) ∧
        step_wizard (Some steps) (Some (istep + 1)%nat) (Some "back")
        = GotoStep here istep
    else
      step_wizard (Some steps) (Some istep) None = GotoQueueAction)) ∧
  step_wizard (Some steps) None None
  = match steps !! 1%nat with
    | Some second => GotoStep second 1
    | None => GotoQueueAction
    end ∧
  step_wizard None None None = GotoQueueAction ∧
  step_wizard None (Some istep) (Some "back") = RaisesIndexError.
Proof.
  split_and!; [| |done|done].
  2: { unfold step_wizard.
       cbn [default from_option String.eqb Ascii.eqb Bool.eqb]. unfold id.
       destruct steps as [|first [|second steps]]; [done|done|].
       assert (∀ n, ((S (S n) - 1) `min` (0 + 1))%nat = 1%nat) as Hmin
         by (intros; lia).
       cbn [length]. by rewrite Hmin. }
  intros Hlt. unfold step_wizard.
  cbn [default from_option String.eqb Ascii.eqb Bool.eqb]. unfold id.
  split.
  - destruct (lookup_lt_is_Some_2 steps (istep - 1)) as [name Hname]; [lia|].
    exists name. split; [done|]. simpl. by rewrite Hname.
  - destruct (decide (istep + 1 < length steps)%nat) as [Hnext|Hlast].
    + destruct (lookup_lt_is_Some_2 steps istep Hlt) as [here Hhere].
      destruct (lookup_lt_is_Some_2 steps (istep + 1) Hnext)
        as [next Hnxt].
      exists here, next. split_and!; [done|done| |].
      * destruct (Nat.leb_spec (length steps) (istep + 1)) as [?|_]; [lia|].
        replace ((length steps - 1) `min` (istep + 1))%nat
          with (istep + 1)%nat by lia.
        by rewrite Hnxt.
      * simpl. replace (istep + 1 - 1)%nat with istep by lia.
        by rewrite Hhere.
    + destruct (Nat.leb_spec (length steps) (istep + 1)) as [_|?]; [done|lia].
Qed.

(** ** The goto-callable that queues the action *)

(** What a goto-callable of the menu raises: Python's [KeyError] with
    the key that was not found, a combatant or the name of a keyword,
    or the [RuntimeError] of the handler *)
Inductive goto_exn :=
| GotoKeyError (key : combatant + string)
| GotoRuntimeError.

Definition goto_raises (e : exn) : goto_exn :=
  match e with
  | KeyError c => GotoKeyError (inl c)
  | RuntimeError => GotoRuntimeError
  end.

Section menu_queue.
Context {World : Type} `{Collaborators World}.

(** [_queue_action]; [kwargs] holds the keywords of the call whose
    value is an action-dict. *)
Definition _queue_action (caller : combatant)
    (kwargs : list (string * action_dict))
    : state World → (goto_exn + string) * state World := fun s =>
  match alookup "action_dict" kwargs with
  | None => (inl (GotoKeyError (inr "action_dict")), s)
  | Some action_dict =>
      match queue_action caller action_dict s with
      | (inl e, s') => (inl (goto_raises e), s')
      | (inr _, s') => (inr "node_wait", s')
      end
  end.

End menu_queue.

(** ** The attack command of the twitch combat *)

(** What [CmdTwitchAttack.func] says *)
Inductive command_text :=
| TxtWhatAttacking
| TxtCantAttack
| TxtAlreadyDown (target : combatant)
| TxtNoPvp
| TxtCombatHelp
| TxtYouAttack (target : combatant).

(** The calls the command makes besides those on the handler: [msg],
    [cmdset.add(TwitchCombatCmdSet)] and the [start] of the script *)
Inductive command_event :=
| CmdMsg (to : combatant) (text : command_text)
| CmdsetAdd (c : combatant)
| ScriptStart.

Section twitch_attack.
Context {World : Type} `{Collaborators World}.

(** [hasattr(target, "hp")] *)
Variable has_hp : combatant → bool.

(** The handler of the room, and what the command has said and done *)
Record session := mkSession {
  handler : state World;
  command_log : list command_event
}.

Definition SM (A : Type) : Type := session → (exn + A) * session.

#[global] Instance SM_ret : MRet SM := fun A a ss => (inr a, ss).
#[global] Instance SM_bind : MBind SM := fun A B k m ss =>
  match m ss with
  | (inl e, ss') => (inl e, ss')
  | (inr a, ss') => k a ss'
  end.

(** A method of the handler, called from the command *)
Definition on_handler {A} (m : M World A) : SM A := fun ss =>
  let '(r, s') := m (handler ss) in (r, mkSession s' (command_log ss)).

Definition logs (e : command_event) : SM unit := fun ss =>
  (inr tt, mkSession (handler ss) (command_log ss ++ [e])).

(** [start_combat]; [is_active] and [start] belong to the script base
    class: the first is read, the call of the second is recorded. *)
Definition start_combat (is_active : bool) : SM unit :=
  if negb is_active then logs ScriptStart else mret tt.

(** [CmdTwitchAttack.func]; [args] tells whether an argument was given,
    [found] is the outcome of [caller.search], an object of the room of
    the handler, [is_active] what the script answers *)
Definition CmdTwitchAttack_func (caller : combatant) (args : bool)
    (found : option combatant) (is_active : bool) : SM unit :=
  if negb args then logs (CmdMsg caller TxtWhatAttacking)
  else
    match found with
    | None => mret tt
    | Some target =>
        if negb (has_hp target) then logs (CmdMsg caller TxtCantAttack)
        else
          health ← on_handler (gets (fun s => hp (world s) target)) ;
          if (health <=? 0)%Z
          then logs (CmdMsg caller (TxtAlreadyDown target))
          else
            pvp ← on_handler (gets allow_pvp) ;
            if is_pc target && negb pvp
            then logs (CmdMsg caller TxtNoPvp)
            else
              is_new ← on_handler (add_combatant caller) ;
              (if is_new : bool
               then logs (CmdsetAdd caller) ;;
                    logs (CmdMsg caller TxtCombatHelp)
               else mret tt) ;;
              is_new ← on_handler (add_combatant target) ;
              (if is_new && is_pc target
               then logs (CmdsetAdd target) ;;
                    logs (CmdMsg target TxtCombatHelp)
               else mret tt) ;;
              on_handler (queue_action caller (Attack target)) ;;
              start_combat is_active ;;
              logs (CmdMsg caller (TxtYouAttack target))
    end.

(** The attack is let through: something with hit points left was
    found, and it is not a player character unless the room allows
    PvP. *)
Definition attack_allowed (args : bool) (found : option combatant)
    (s : state World) : bool :=
  match found with
  | Some target =>
      args && has_hp target && negb (hp (world s) target <=? 0)%Z
      && negb (is_pc target && negb (allow_pvp s))
  | None => false
  end.

Lemma elem_of_akeys_ainsert {V} (k k' : combatant) (v : V) l :
  k ∈ akeys (ainsert k' v l) ↔ k = k' ∨ k ∈ akeys l.
Proof.
  destruct (decide (k' ∈ akeys l)) as [Hin|Hin].
  - rewrite akeys_ainsert_elem by done. split; [by right|].
    by intros [->|?].
  - rewrite akeys_ainsert_notin by done.
    rewrite elem_of_app, list_elem_of_singleton. tauto.
Qed.

Lemma add_combatant_registers c (s : state World) :
  registered c (add_combatant c s).2 ∧
  max_action_queue_size (add_combatant c s).2 = max_action_queue_size s ∧
  (∀ d, registered d s → registered d (add_combatant c s).2) ∧
  (∀ d, registered d (add_combatant c s).2 → d = c ∨ registered d s) ∧
  (∀ d, registered d s →
        alookup d (combatants (add_combatant c s).2)
        = alookup d (combatants s)) ∧
  (add_combatant c s).1
  = inr (negb (bool_decide (c ∈ akeys (combatants s)))).
Proof.
  unfold add_combatant, registered. case_bool_decide as Hc; simpl.
  - split_and!; try done. by right.
  - split_and!; try done.
    + apply elem_of_akeys_ainsert. by left.
    + intros d Hd. apply elem_of_akeys_ainsert. by right.
    + intros d Hd. by apply elem_of_akeys_ainsert in Hd.
    + intros d Hd. rewrite alookup_ainsert.
      destruct (decide (d = c)) as [->|]; [done|done].
Qed.

Lemma queue_action_last c a (s : state World) :
  registered c s →
  (queue_action c a s).1 = inr tt ∧
  akeys (combatants (queue_action c a s).2) = akeys (combatants s) ∧
  (∀ d, d ≠ c →
        alookup d (combatants (queue_action c a s).2)
        = alookup d (combatants s)) ∧
  ((0 < max_action_queue_size s)%nat →
   ∃ q, alookup c (combatants (queue_action c a s).2) = Some (q ++ [a])).
Proof.
  intros Hreg. destruct (acts_queue_action c a s) as [Hf Hr].
  split_and!.
  - by destruct (Hr Hreg) as [[] Hv].
  - apply (af_keys _ _ _ Hf).
  - intros d Hd. by apply (af_queue _ _ _ Hf).
  - intros Hmax. apply alookup_is_Some in Hreg as [q Hq].
    unfold queue_action. unfold_monad. rewrite Hq. simpl.
    exists (if (length q <? max_action_queue_size s)%nat then q else tail q).
    destruct (_ <=? _)%nat; simpl;
      rewrite alookup_ainsert, decide_True by done;
      unfold deque_append; destruct (max_action_queue_size s); try lia;
      by destruct (_ <? _)%nat.
Qed.

(** The log of an attack that is let through *)
Definition attack_log (caller target : combatant) (is_active : bool)
    (s : state World) : list command_event :=
  (if bool_decide (caller ∈ akeys (combatants s)) then []
   else [CmdsetAdd caller; CmdMsg caller TxtCombatHelp])
  ++ (if negb (bool_decide (target ∈ caller :: akeys (combatants s)))
         && is_pc target
      then [CmdsetAdd target; CmdMsg target TxtCombatHelp] else [])
  ++ (if is_active then [] else [ScriptStart])
  ++ [CmdMsg caller (TxtYouAttack target)].

Lemma attack_let_through caller args found is_active ss target :
  found = Some target →
  attack_allowed args found (handler ss) = true →
  CmdTwitchAttack_func caller args found is_active ss
  = (inr tt,
     mkSession
       (queue_action caller (Attack target)
          (add_combatant target (add_combatant caller (handler ss)).2).2).2
       (command_log ss ++ attack_log caller target is_active (handler ss))).
Proof.
  intros -> Hok. unfold attack_allowed in Hok.
  apply andb_prop in Hok as [Hok Hpvp].
  apply andb_prop in Hok as [Hok Hup].
  apply andb_prop in Hok as [-> Hhp].
  apply negb_true_iff in Hup, Hpvp.
  destruct ss as [s0 log]. simpl in *.
  destruct (add_combatant_registers caller s0)
    as (Hc1 & Hm1 & Hup1 & Hdown1 & Hq1 & Hr1).
  destruct (add_combatant_registers target (add_combatant caller s0).2)
    as (Hc2 & Hm2 & Hup2 & Hdown2 & Hq2 & Hr2).
  destruct (queue_action_last caller (Attack target) _ (Hup2 _ Hc1))
    as (Hr3 & _).
  unfold CmdTwitchAttack_func. rewrite Hhp. cbn [negb].
  unfold mbind, SM_bind, on_handler, gets, start_combat, logs, mret, SM_ret.
  cbn [handler command_log]. rewrite Hup. cbn [handler command_log].
  rewrite Hpvp. cbn [handler command_log].
  destruct (add_combatant caller s0) as [r1 s1] eqn:E1.
  cbn [fst snd] in *. subst r1.
  assert (bool_decide (target ∈ akeys (combatants s1))
          = bool_decide (target ∈ caller :: akeys (combatants s0))) as Hnew.
  { apply bool_decide_ext. rewrite elem_of_cons. split.
    - intros Hd. destruct (Hdown1 _ Hd); [by left|by right].
    - intros [->|Hd]; [done|by apply Hup1]. }
  rewrite Hnew in Hr2. unfold attack_log.
  destruct (bool_decide (caller ∈ _)); cbn [negb handler command_log];
    destruct (add_combatant target s1) as [r2 s2] eqn:E2;
    cbn [fst snd] in *; subst r2;
    destruct (negb _ && is_pc target); cbn [handler command_log];
    destruct (queue_action caller (Attack target) s2) as [r3 s3] eqn:E3;
    cbn [fst snd] in *; subst r3;
    destruct is_active; cbn [negb handler command_log];
    rewrite <- ?app_assoc; done.
Qed.

(** X18. The attack command.  When the attack is let through, the
    command returns normally with the caller and the target registered;
    whoever was registered still is, with the same queue unless the
    caller; the caller's queue ends with the attack on the target when
    queues have room for an action; the caller gets the combat commands
    exactly when new to the combat, the script is started exactly when
    it was not running, and the caller is told of the attack last.  When
    it is not let through, the handler is left as it was, nothing is
    started or added, and at most the caller is told why. *)
Theorem attack_command caller args found is_active ss :
  let out := CmdTwitchAttack_func caller args found is_active ss in
  out.1 = inr tt ∧
  ∃ done,
    command_log out.2 = command_log ss ++ done ∧
    if attack_allowed args found (handler ss) then
      ∃ target,
        found = Some target ∧
        registered caller (handler out.2) ∧
        registered target (handler out.2) ∧
        (∀ d, registered d (handler out.2) ↔
              d = caller ∨ d = target ∨ registered d (handler ss)) ∧
        (∀ d, d ≠ caller → registered d (handler ss) →
              alookup d (combatants (handler out.2))
              = alookup d (combatants (handler ss))) ∧
        ((0 < max_action_queue_size (handler ss))%nat →
         ∃ q, alookup caller (combatants (handler out.2))
              = Some (q ++ [Attack target])) ∧
        (CmdsetAdd caller ∈ done ↔ ¬ registered caller (handler ss)) ∧
        (ScriptStart ∈ done ↔ is_active = false) ∧
        last done = Some (CmdMsg caller (TxtYouAttack target))
    else
      handler out.2 = handler ss ∧
      (done = [] ∨ ∃ text, done = [CmdMsg caller text]).
Proof.
  cbv zeta. destruct (attack_allowed args found (handler ss)) eqn:Hok.
  - assert (∃ target, found = Some target) as [target ->]
      by (destruct found; [by eexists|done]).
    rewrite (attack_let_through caller args (Some target) is_active ss
               target eq_refl Hok).
    cbn [fst snd handler command_log]. clear Hok.
    set (s0 := handler ss).
    destruct (add_combatant_registers caller s0)
      as (Hc1 & Hm1 & Hup1 & Hdown1 & Hq1 & _).
    destruct (add_combatant_registers target (add_combatant caller s0).2)
      as (Hc2 & Hm2 & Hup2 & Hdown2 & Hq2 & _).
    destruct (queue_action_last caller (Attack target) _ (Hup2 _ Hc1))
      as (_ & Hk3 & Hq3 & Hlast).
    split; [done|]. eexists. split; [done|]. exists target.
    unfold registered in *. rewrite !Hk3. split_and!.
    + done.
    + by apply Hup2.
    + done.
    + intros d. split.
      * intros Hd. destruct (Hdown2 d Hd) as [->|Hd1]; [by right; left|].
        destruct (Hdown1 d Hd1) as [->|Hd0]; [by left|by right; right].
      * intros [->|[->|Hd]]; [by apply Hup2|done|by apply Hup2, Hup1].
    + intros d Hdc Hd. rewrite (Hq3 d Hdc), (Hq2 d (Hup1 d Hd)).
      by apply Hq1.
    + intros Hmax. apply Hlast. by rewrite Hm2, Hm1.
    + unfold attack_log.
      destruct (decide (target = caller)) as [->|Hne].
      * rewrite (bool_decide_true (caller ∈ caller :: _))
          by apply list_elem_of_here.
        cbn [negb andb]. case_bool_decide; destruct is_active;
          rewrite ?elem_of_app, ?elem_of_cons, ?elem_of_nil; intuition congruence.
      * case_bool_decide; destruct (negb _ && is_pc target), is_active;
          rewrite ?elem_of_app, ?elem_of_cons, ?elem_of_nil; intuition congruence.
    + unfold attack_log.
      case_bool_decide; destruct (negb _ && is_pc target), is_active;
        rewrite ?elem_of_app, ?elem_of_cons, ?elem_of_nil; intuition congruence.
    + unfold attack_log. rewrite !app_assoc. apply last_snoc.
  - unfold attack_allowed in Hok. unfold CmdTwitchAttack_func.
    destruct args; cbn [negb andb] in *.
    2: { split; [done|]. eexists. split; [done|]. split; [done|].
         right. by eexists. }
    destruct found as [target|].
    2: { split; [done|]. exists []. rewrite app_nil_r.
         split; [done|]. split; [done|]. by left. }
    destruct (has_hp target); cbn [negb andb] in *.
    2: { split; [done|]. eexists. split; [done|]. split; [done|].
         right. by eexists. }
    unfold mbind, SM_bind, on_handler, gets, logs.
    cbn [handler command_log].
    destruct (hp (world (handler ss)) target <=? 0)%Z;
      cbn [negb andb handler command_log] in *.
    { split; [done|]. eexists. split; [done|]. split; [done|].
      right. by eexists. }
    apply negb_false_iff in Hok. rewrite Hok.
    split; [done|]. eexists. split; [done|]. split; [done|].
    right. by eexists.
Qed.

End twitch_attack.

(** ** The further properties on concrete combats *)

Lemma three_queued_bounded : queues_bounded three_queued.
Proof.
  unfold queues_bounded. vm_compute.
  repeat (apply Forall_cons; split; [apply le_n|]). apply Forall_nil_2.
Defined.

Lemma registered_1 : registered 1 three_queued.
Proof. apply list_elem_of_here. Defined.

Lemma registered_200 : registered 200 three_queued.
Proof. do 2 apply list_elem_of_further. apply list_elem_of_here. Defined.

Lemma queues_stay_bounded_witness :
  queues_bounded three_queued ∧
  queues_bounded (add_combatant 2 three_queued).2 ∧
  queues_bounded (queue_action 2 Flee three_queued).2 ∧
  queues_bounded (get_next_action_dict 2 true three_queued).2 ∧
  queues_bounded (execute_full_turn [1; 2; 200] 0 three_queued).2.
Proof.
  split; [exact three_queued_bounded|].
  exact (queues_stay_bounded 2 Flee true [1; 2; 200] 0 three_queued
           three_queued_bounded).
Defined.

Lemma queue_action_keeps_latest_witness :
  alookup 1 (combatants three_queued) = Some [Attack 200] ∧
  (length [Attack 200] ≤ max_action_queue_size three_queued)%nat ∧
  (queue_action 1 Flee three_queued).1 = inr tt ∧
  alookup 1 (combatants (queue_action 1 Flee three_queued).2)
  = Some (drop (length [Attack 200] + 1 - max_action_queue_size three_queued)
            ([Attack 200] ++ [Flee])) ∧
  ∀ d, d ≠ 1%nat →
       alookup d (combatants (queue_action 1 Flee three_queued).2)
       = alookup d (combatants three_queued).
Proof.
  assert (alookup 1 (combatants three_queued) = Some [Attack 200]) as Hq
    by reflexivity.
  assert (length [Attack 200] ≤ max_action_queue_size three_queued)%nat
    as Hlen by (vm_compute; lia).
  split; [exact Hq|]. split; [exact Hlen|].
  exact (queue_action_keeps_latest 1 Flee [Attack 200] three_queued Hq Hlen).
Defined.

Lemma last_queued_action_repeats_witness :
  registered 1 three_queued ∧ queues_bounded three_queued ∧
  max_action_queue_size three_queued = 1%nat ∧
  get_next_action_dict 1 true (queue_action 1 Flee three_queued).2
  = (inr Flee, (queue_action 1 Flee three_queued).2).
Proof.
  split; [exact registered_1|]. split; [exact three_queued_bounded|].
  split; [reflexivity|].
  exact (last_queued_action_repeats 1 Flee true three_queued registered_1
           three_queued_bounded eq_refl).
Defined.

(** A handler whose class sets [max_action_queue_size] to three; player
    character 1 has queued three actions against the NPC 200. *)
Definition three_deep : state World :=
  submit_all [(1, Attack 200); (1, Hold); (1, Flee)]
    (register [1; 200]
       {| turn := 0;
          combatants := [];
          advantage_matrix := ∅;
          disadvantage_matrix := ∅;
          fleeing_combatants := [];
          defeated_combatants := [];
          ndb_did_action := None;
          flee_timeout := 5;
          max_action_queue_size := 3;
          allow_pvp := false;
          world := everyone_healthy;
          trace := [] |}).

Lemma queue_rotation_witness :
  alookup 1 (combatants three_deep) = Some [Attack 200; Hold; Flee] ∧
  read_actions (length [Attack 200; Hold; Flee]) 1 three_deep
  = ([Attack 200; Hold; Flee], three_deep).
Proof.
  assert (alookup 1 (combatants three_deep) = Some [Attack 200; Hold; Flee])
    as Hq by reflexivity.
  split; [exact Hq|].
  exact (queue_rotation 1 [Attack 200; Hold; Flee] three_deep Hq).
Defined.

Lemma new_combatant_holds_witness :
  ¬ registered 7 three_registered ∧
  get_next_action_dict 7 true (add_combatant 7 three_registered).2
  = (inr Hold, (add_combatant 7 three_registered).2).
Proof.
  split; [exact not_registered_7|].
  exact (new_combatant_holds 7 true three_registered not_registered_7).
Defined.

Lemma get_sides_partition_witness :
  NoDup (akeys (combatants three_queued)) ∧ registered 1 three_queued ∧
  let '(allies, enemies) := get_sides 1 three_queued in
  if allow_pvp three_queued then
    1%nat :: enemies ≡ₚ akeys (combatants three_queued)
  else
    1%nat :: allies ++ enemies ≡ₚ akeys (combatants three_queued) ∧
    (1%nat ∉ allies) ∧
    Forall (fun d => is_pc d = is_pc 1) allies ∧
    Forall (fun d => is_pc d ≠ is_pc 1) enemies.
Proof.
  split; [exact NoDup_three|]. split; [exact registered_1|].
  exact (get_sides_partition 1 three_queued NoDup_three registered_1).
Defined.

Lemma enemies_symmetric_witness :
  registered 1 three_queued ∧ registered 200 three_queued ∧
  (200%nat ∈ (get_sides 1 three_queued).2
   ↔ 1%nat ∈ (get_sides 200 three_queued).2).
Proof.
  split; [exact registered_1|]. split; [exact registered_200|].
  exact (enemies_symmetric 1 200 three_queued registered_1 registered_200).
Defined.

(** Calls on the ledger that neither read nor revoke the advantage of 1
    against 200 *)
Definition other_calls : list ledger_call :=
  [GiveDisadvantage 1 200; HasAdvantage 2 200; HasDisadvantage 1 200;
   LoseAdvantage 1 2; GiveAdvantage 1 200].

Lemma advantage_waits_witness :
  (HasAdvantage 1 200 ∉ other_calls) ∧
  (LoseAdvantage 1 200 ∉ other_calls) ∧
  (has_advantage 1 200
     (ledger_run other_calls (give_advantage 1 200 three_registered).2)).1
  = inr true.
Proof.
  assert (HasAdvantage 1 200 ∉ other_calls) as Hread by by_computation.
  assert (LoseAdvantage 1 200 ∉ other_calls) as Hlose by by_computation.
  split; [exact Hread|]. split; [exact Hlose|].
  exact (advantage_waits 1 200 other_calls three_registered Hread Hlose).
Defined.

Lemma grants_do_not_stack_witness :
  (200%nat ∉ akeys (fleeing_combatants three_registered)) ∧
  (1%nat ∉ akeys (fleeing_combatants three_registered)) ∧
  (let twice :=
     (give_advantage 1 200 (give_advantage 1 200 three_registered).2).2 in
   (has_advantage 1 200 twice).1 = inr true ∧
   (has_advantage 1 200 (has_advantage 1 200 twice).2).1 = inr false ∧
   (has_advantage 1 200
      (lose_advantage 1 200 (give_advantage 1 200 three_registered).2).2).1
   = inr false) ∧
  (let twice :=
     (give_disadvantage 1 200
        (give_disadvantage 1 200 three_registered).2).2 in
   (has_disadvantage 1 200 twice).1 = inr true ∧
   (has_disadvantage 1 200 (has_disadvantage 1 200 twice).2).1 = inr false ∧
   (has_disadvantage 1 200
      (lose_disadvantage 1 200
         (give_disadvantage 1 200 three_registered).2).2).1
   = inr false).
Proof.
  assert (200%nat ∉ akeys (fleeing_combatants three_registered)) as Ht
    by apply not_elem_of_nil.
  assert (1%nat ∉ akeys (fleeing_combatants three_registered)) as Hr
    by apply not_elem_of_nil.
  split; [exact Ht|]. split; [exact Hr|]. split.
  - exact (proj1 (grants_do_not_stack 1 200 three_registered) Ht).
  - exact (proj2 (grants_do_not_stack 1 200 three_registered) Hr).
Defined.

Lemma move_repeats_or_holds_witness :
  max_action_queue_size three_queued = 1%nat ∧
  alookup 1 (combatants three_queued) = Some [Attack 200] ∧
  (execute_next_action 1 three_queued).1 = inr tt ∧
  alookup 1 (combatants (execute_next_action 1 three_queued).2)
  = Some [if reverts_to_hold 1 (Attack 200) three_queued
          then Hold else Attack 200].
Proof.
  split; [reflexivity|]. split; [reflexivity|].
  exact (move_repeats_or_holds 1 (Attack 200) three_queued eq_refl eq_refl).
Defined.

(** The blows of [last_blow] have been struck: the NPC 200 is down. *)
Definition struck_down : state World :=
  exec (action_phase [1; 200]) last_blow.

Lemma defeat_sweep_conserves_witness :
  NoDup (akeys (combatants struck_down)) ∧
  (defeat_sweep struck_down).1 = inr tt ∧
  ∃ fallen,
    defeated_combatants (defeat_sweep struck_down).2
    = defeated_combatants struck_down ++ fallen ∧
    akeys (combatants struck_down)
    ≡ₚ akeys (combatants (defeat_sweep struck_down).2) ++ fallen.
Proof.
  assert (NoDup (akeys (combatants struck_down))) as Hnd by by_computation.
  split; [exact Hnd|].
  exact (defeat_sweep_conserves struck_down Hnd).
Defined.



Lemma combat_summary_layout_witness :
  NoDup (akeys (combatants three_queued)) ∧ registered 1 three_queued ∧
  allow_pvp three_queued = false ∧
  (∃ allies vs enemies s',
     get_combat_summary 1 three_queued = (inr (allies, vs, enemies), s') ∧
     length allies = length vs ∧ length enemies = length vs ∧
     vs !! (length vs `div` 2)%nat = Some CellVersus ∧
     ∀ d, alookup d (combatants s')
          = deque_rotate <$> alookup d (combatants three_queued)) ∧
  ¬ registered 7 three_registered ∧
  get_combat_summary 7 three_registered = (inl (KeyError 7), three_registered).
Proof.
  split; [exact NoDup_three|]. split; [exact registered_1|].
  split; [reflexivity|]. split.
  - exact (proj1 (combat_summary_layout 1 three_queued)
             NoDup_three registered_1 eq_refl).
  - split; [exact not_registered_7|].
    exact (proj2 (combat_summary_layout 7 three_registered)
             not_registered_7).
Defined.

(** The steps of the stunt wizard of the top-level menu *)
Definition stunt_steps : list string :=
  ["node_choose_ability"; "node_choose_allied_target";
   "node_choose_enemy_target"].

Lemma wizard_stays_in_range_witness :
  (1 < length stunt_steps)%nat ∧
  (∃ name,
     stunt_steps !! (1 - 1)%nat = Some name ∧
     step_wizard (Some stunt_steps) (Some 1%nat) (Some "back")
     = GotoStep name (1 - 1)) ∧
  (if decide (1 + 1 < length stunt_steps)%nat then
     ∃ here next,
       stunt_steps !! 1%nat = Some here ∧
       stunt_steps !! (1 + 1)%nat = Some next ∧
       step_wizard (Some stunt_steps) (Some 1%nat) None
       = GotoStep next (1 + 1) ∧
       step_wizard (Some stunt_steps) (Some (1 + 1)%nat) (Some "back")
       = GotoStep here 1
   else
     step_wizard (Some stunt_steps) (Some 1%nat) None = GotoQueueAction).
Proof.
  assert (1 < length stunt_steps)%nat as Hlt by (simpl; lia).
  split; [exact Hlt|].
  exact (proj1 (wizard_stays_in_range stunt_steps 1) Hlt).
Defined.

(** In the room of [three_queued], where only the three combatants have
    hit points, player character 2 attacks the NPC 200 while the script
    is running, and a newcomer, 201, is attacked by a newcomer, 3. *)
Definition in_the_room (s : state World) : session :=
  {| handler := s; command_log := [] |}.

Definition has_hit_points (c : combatant) : bool :=
  bool_decide (c ∈ [1; 2; 3; 200; 201]%nat).

Lemma attack_command_witness :
  let out :=
    CmdTwitchAttack_func has_hit_points 3 true (Some 200%nat) false
      (in_the_room three_queued) in
  attack_allowed has_hit_points true (Some 200%nat) three_queued = true ∧
  (0 < max_action_queue_size three_queued)%nat ∧
  out.1 = inr tt ∧
  ∃ done,
    command_log out.2 = done ∧
    registered 3 (handler out.2) ∧ registered 200 (handler out.2) ∧
    (∃ q, alookup 3 (combatants (handler out.2))
          = Some (q ++ [Attack 200])) ∧
    (CmdsetAdd 3 ∈ done ↔ ¬ registered 3 three_queued) ∧
    (ScriptStart ∈ done ↔ false = false) ∧
    last done = Some (CmdMsg 3 (TxtYouAttack 200)).
Proof.
  intros out.
  assert (attack_allowed has_hit_points true (Some 200%nat) three_queued
          = true) as Hok by reflexivity.
  assert (0 < max_action_queue_size three_queued)%nat as Hmax
    by (vm_compute; lia).
  split; [exact Hok|]. split; [exact Hmax|].
  destruct (attack_command has_hit_points 3 true (Some 200%nat) false
              (in_the_room three_queued)) as (Hret & done & Hlog & Hrest).
  split; [exact Hret|]. exists done. split; [exact Hlog|].
  change (attack_allowed has_hit_points true (Some 200%nat)
            (handler (in_the_room three_queued))) with true in Hrest.
  destruct Hrest
    as (target & Hfound & Hc & Ht & _ & _ & Hq & Hset & Hstart & Hlast).
  injection Hfound as <-.
  split; [exact Hc|]. split; [exact Ht|]. split; [exact (Hq Hmax)|].
  split; [exact Hset|]. split; [exact Hstart|]. exact Hlast.
Defined.

(** C5 as stated fails: the code has no error of its own for a
    combatant that is not registered.  What [queue_action] raises for
    the unregistered combatant 7 is the [KeyError] of the dictionary
    lookup, and the goto-callable of the menu passes it on; the same
    callable raises [KeyError] for combatant 1, who is registered, when
    it is called as the flee option of the top-level menu calls it,
    without the keyword [action_dict]. *)
Lemma lookup_error_not_dedicated :
  ¬ registered 7 three_registered ∧
  queue_action 7 Hold three_registered
  = (inl (KeyError 7), three_registered) ∧
  get_next_action_dict 7 true three_registered
  = (inl (KeyError 7), three_registered) ∧
  _queue_action 7 [("action_dict", Hold)] three_registered
  = (inl (GotoKeyError (inl 7)), three_registered) ∧
  registered 1 three_registered ∧
  _queue_action 1 [("flee", Flee)] three_registered
  = (inl (GotoKeyError (inr "action_dict")), three_registered).
Proof.
  split; [exact not_registered_7|].
  split_and!; try reflexivity. apply list_elem_of_here.
Qed.
